(** * Royalty accounting of the music-label agents

    A shallow embedding of
    - [agents/royalty_manager.py]  (RoyaltyManager: apply_split, calculate,
      reconcile, set_split, set_advance, generate_report, check_advances,
      get_artist_balance),
    - [agents/contract_manager.py] (ContractManager: verify_splits,
      update_split, add_contract, get_contract_status, generate_summary),
    - [agents/director.py]         (Director: escalate, register_agent,
      delegate, prioritize, status_report),
    - [agents/base_agent.py]       (BaseAgent: to_dict, from_dict),
    together with the properties the specification states about them and
    further properties of the code. *)

From Stdlib Require Import ZArith QArith Qround Qabs Qpower Lia Lqa Ascii Sorting.Sorted.
From Stdlib Require Import Floats.PrimFloat Floats.SpecFloat Floats.FloatOps Floats.FloatAxioms.
From stdpp Require Import base option list strings gmap.

#[local] Set Warnings "-inexact-float".
#[local] Set Warnings "-clear-no-such-hyp".

(** ** decimal.Decimal

    A finite [Decimal] is a coefficient and an exponent, denoting
    [coeff * 10 ^ exponent]; [Decimal("7000.00")] is [mkDecimal 700000 (-2)].
    The sign lives in the coefficient, so the negative zero of Python is
    identified with zero (the two compare equal there as well).  NaN and
    the infinities are not represented: the amounts that reach the engine
    are finite.

    Python rounds the result of an arithmetic operation to the precision of
    its context: 28 significant digits, ties to even, in the default
    context, which the engine never changes.  [mul] does so: a revenue
    times a share fraction read from a float has easily more than 28
    digits.  [add] and [sub] are the exact ones: the engine adds and
    subtracts amounts of money, whose sums stay below 28 digits, and within
    that Python's are exact as well.  The bounds on the exponent
    ([Emin], [Emax], six digits long) are left out. *)

Record Decimal : Set := mkDecimal { coeff : Z; exponent : Z }.

#[global] Instance Decimal_eq_dec : EqDecision Decimal.
Proof. solve_decision. Defined.

Module Dec.
#[local] Open Scope Z_scope.

(** [Decimal("0")] *)
Definition zero : Decimal := mkDecimal 0 0.

(** Coefficient of [d] once rewritten with the smaller exponent [e]. *)
Definition align (d : Decimal) (e : Z) : Z := coeff d * 10 ^ (exponent d - e).

(** [a + b]: the result carries the smaller of the two exponents. *)
Definition add (a b : Decimal) : Decimal :=
  let e := Z.min (exponent a) (exponent b) in
  mkDecimal (align a e + align b e) e.

(** [a - b] *)
Definition sub (a b : Decimal) : Decimal :=
  let e := Z.min (exponent a) (exponent b) in
  mkDecimal (align a e - align b e) e.

(** The precision of the default context. *)
Definition prec : Z := 28.

(** The number of decimal digits of [n], at least one. *)
Fixpoint digits_from (fuel : nat) (k : Z) (n : Z) : Z :=
  match fuel with
  | O => k
  | S fuel' => if n <? 10 ^ k then k else digits_from fuel' (k + 1) n
  end.

Definition digits (n : Z) : Z :=
  digits_from (Z.to_nat (Z.log2 (Z.abs n))) 1 (Z.abs n).

(** Rounding of a result to the context ([Decimal._fix]): a coefficient of
    more than [prec] digits loses its last digits, the kept part going to
    the nearest value and on a tie to the even one ([ROUND_HALF_EVEN]);
    when that carries into one digit more, the coefficient is
    [10 ^ (prec - 1)] and the exponent one higher. *)
Definition round_context (d : Decimal) : Decimal :=
  if Z.abs (coeff d) <? 10 ^ prec then d
  else
    let drop := digits (coeff d) - prec in
    let unit := 10 ^ drop in
    let q := Z.abs (coeff d) / unit in
    let r := Z.abs (coeff d) mod unit in
    let q' := if (unit <? 2 * r) || ((2 * r =? unit) && Z.odd q) then q + 1 else q in
    if q' =? 10 ^ prec
    then mkDecimal (Z.sgn (coeff d) * 10 ^ (prec - 1)) (exponent d + drop + 1)
    else mkDecimal (Z.sgn (coeff d) * q') (exponent d + drop).

(** [a * b]: coefficients multiply, exponents add, and the product is
    rounded to the context. *)
Definition mul (a b : Decimal) : Decimal :=
  round_context (mkDecimal (coeff a * coeff b) (exponent a + exponent b)).

(** Numeric comparison ([__lt__], [__eq__], ...): by value, whatever the
    exponents. *)
Definition compare (a b : Decimal) : comparison :=
  let e := Z.min (exponent a) (exponent b) in
  align a e ?= align b e.

Definition ltb (a b : Decimal) : bool :=
  match compare a b with Lt => true | _ => false end.
Definition leb (a b : Decimal) : bool :=
  match compare a b with Gt => false | _ => true end.
Definition eqb (a b : Decimal) : bool :=
  match compare a b with Eq => true | _ => false end.

(** The builtin [min(a, b)]: [b] when [b < a], else the first argument. *)
Definition min (a b : Decimal) : Decimal := if ltb b a then b else a.

(** [d.quantize(Decimal(10) ** e, rounding=ROUND_HALF_UP)]: rewrite [d]
    with exponent [e].  Digits that do not fit are dropped and the
    magnitude of the coefficient is incremented when the dropped part is
    at least half a unit of the last kept digit.

    Python raises [InvalidOperation] when the coefficient of the result
    has more than [prec] digits, which at two decimal places is an amount
    of [10 ^ 26] and more; this function gives the rounded value there as
    well, and what is stated below about the value of a share is stated
    for results of at most [prec] digits. *)
Definition quantize_half_up (d : Decimal) (e : Z) : Decimal :=
  if exponent d >=? e then mkDecimal (coeff d * 10 ^ (exponent d - e)) e
  else
    let unit := 10 ^ (e - exponent d) in
    let q := Z.abs (coeff d) / unit in
    let r := Z.abs (coeff d) mod unit in
    let q' := if 2 * r >=? unit then q + 1 else q in
    mkDecimal (Z.sgn (coeff d) * q') e.

(** The rational a decimal denotes. *)
Definition to_Q (d : Decimal) : Q :=
  (inject_Z (coeff d) * inject_Z 10 ^ exponent d)%Q.
End Dec.

(** ** Exceptions, logging and the state of a method call *)

(** A value put into a message: a piece of an f-string, or an argument of a
    logging call. *)
Inductive Arg : Set :=
  | AStr (s : string)
  | AInt (n : Z)
  | AFloat (x : float).

(** The exceptions of the three modules, each with the pieces of its
    message. *)
Inductive exn : Set :=
  | RoyaltyCalculationError (message : list Arg)
  | ContractError (message : list Arg).

Inductive outcome (A : Type) : Type :=
  | Returned (a : A)
  | Raised (e : exn).
Arguments Returned {A} a.
Arguments Raised {A} e.

Inductive Level : Set := WARNING | INFO.

(** A call of [logger.warning] / [logger.info]: the format string and its
    arguments, as the logging module keeps them. *)
Record LogRecord : Set :=
  mkLog { levelname : Level; msg : string; args : list Arg }.

(** What a method can touch: the object it is called on and the module's
    logger. *)
Record Env (Obj : Type) : Type := mkEnv { self : Obj; logged : list LogRecord }.
Arguments mkEnv {Obj} self logged.
Arguments self {Obj} e.
Arguments logged {Obj} e.

(** A method body: it runs from a state, returns or raises, and leaves a
    state behind (a mutation made before a raise stays). *)
Definition M (Obj A : Type) : Type := Env Obj -> outcome A * Env Obj.

Definition ret {Obj A} (a : A) : M Obj A := fun s => (Returned a, s).

Definition bind {Obj A B} (m : M Obj A) (k : A -> M Obj B) : M Obj B :=
  fun s =>
    match m s with
    | (Returned a, s') => k a s'
    | (Raised e, s') => (Raised e, s')
    end.

Definition raise {Obj A} (e : exn) : M Obj A := fun s => (Raised e, s).

(** [try: m  except ...: handler e] *)
Definition try_except {Obj A} (m : M Obj A) (handler : exn -> M Obj A) : M Obj A :=
  fun s =>
    match m s with
    | (Returned a, s') => (Returned a, s')
    | (Raised e, s') => handler e s'
    end.

Definition read {Obj A} (f : Obj -> A) : M Obj A := fun s => (Returned (f (self s)), s).

Definition write {Obj} (f : Obj -> Obj) : M Obj unit :=
  fun s => (Returned tt, mkEnv (f (self s)) (logged s)).

Definition log {Obj} (l : Level) (fmt : string) (a : list Arg) : M Obj unit :=
  fun s => (Returned tt, mkEnv (self s) (logged s ++ [mkLog l fmt a])).

Declare Scope method_scope.
Delimit Scope method_scope with method.
Notation "x <- m ;; k" := (bind m (fun x => k))
  (at level 100, m at next level, right associativity) : method_scope.
Notation "m ;;; k" := (bind m (fun _ => k))
  (at level 100, right associativity) : method_scope.

(** [for x in l: acc = body acc x], the loop variables in [acc]. *)
Fixpoint for_each {Obj A B} (l : list B) (body : A -> B -> M Obj A) (acc : A) : M Obj A :=
  match l with
  | [] => ret acc
  | x :: l' => bind (body acc x) (for_each l' body)
  end.

(** Truth value of a [str | None] argument: [None] and [""] are false. *)
Definition truthy (s : option string) : bool :=
  match s with
  | Some x => negb (String.eqb x "")
  | None => false
  end.

(** ** agents/royalty_manager.py *)

Module royalty_manager.
#[local] Open Scope method_scope.

Record ArtistPayout : Set := mkArtistPayout {
  artist : string;
  quarter : string;
  gross_revenue : Decimal;
  split_pct : Decimal;
  artist_share : Decimal;
  advance_deducted : Decimal;
  net_payout : Decimal;
  tracks_count : nat;
  streams_count : Z
}.

Record RoyaltyManager : Type := mkRoyaltyManager {
  _splits_cache : gmap string Decimal;
  _advances_cache : gmap string Decimal
}.

(** One row of [revenue_data], a dictionary read with [row.get]: a key may
    be missing.  ["revenue"] is held as the decimal [Decimal(str(v))]
    reads, ["streams"] as the integer [int(v)] gives. *)
Record Row : Set := mkRow {
  row_artist : option string;
  row_revenue : option Decimal;
  row_streams : option Z;
  row_track : option string
}.

Definition apply_split (revenue : Decimal) (artist : string) : M RoyaltyManager Decimal :=
  split_pct <- read (fun self => _splits_cache self !! artist) ;;
  match split_pct with
  | None =>
      raise (RoyaltyCalculationError
               [AStr "Split not found for artist '"; AStr artist; AStr "'. ";
                AStr "Check contracts or set default."])
  | Some split_pct => ret (Dec.quantize_half_up (Dec.mul revenue split_pct) (-2))
  end.

(** [a = row.get("artist", "Unknown")] *)
Definition row_key (row : Row) : string := default "Unknown" (row_artist row).

(** [by_artist.setdefault(a, []).append(row)] on a dictionary, which keeps
    its keys in insertion order. *)
Fixpoint setdefault_append (a : string) (row : Row)
    (by_artist : list (string * list Row)) : list (string * list Row) :=
  match by_artist with
  | [] => [(a, [row])]
  | (k, rows) :: rest =>
      if String.eqb k a then (k, rows ++ [row]) :: rest
      else (k, rows) :: setdefault_append a row rest
  end.

(** [if artist and a != artist: continue] *)
Definition skipped (artist : option string) (row : Row) : bool :=
  truthy artist && negb (bool_decide (Some (row_key row) = artist)).

Definition group_rows (artist : option string) (revenue_data : list Row)
    : list (string * list Row) :=
  fold_left
    (fun by_artist row =>
       if skipped artist row then by_artist
       else setdefault_append (row_key row) row by_artist)
    revenue_data [].

(** The inner loop over the rows of one artist: [gross], [streams],
    [tracks]. *)
Definition totals (rows : list Row) : Decimal * Z * gset string :=
  fold_left
    (fun '(gross, streams, tracks) row =>
       let amount := default Dec.zero (row_revenue row) in
       let gross := Dec.add gross amount in
       let streams := (streams + default 0 (row_streams row))%Z in
       let tracks :=
         if truthy (row_track row) then tracks ∪ {[default "" (row_track row)]}
         else tracks in
       (gross, streams, tracks))
    rows (Dec.zero, 0%Z, ∅).

(** The body of [for artist_name, rows in by_artist.items()]. *)
Definition payout_step (quarter : string) (results : list ArtistPayout)
    (item : string * list Row) : M RoyaltyManager (list ArtistPayout) :=
  let '(artist_name, rows) := item in
  let '(gross, streams, tracks) := totals rows in
  caught <-
    try_except
      (artist_share <- apply_split gross artist_name ;; ret (Some artist_share))
      (fun e =>
         match e with
         | RoyaltyCalculationError _ =>
             log WARNING "No split for %s, skipping" [AStr artist_name] ;;;
             ret None
         | _ => raise e
         end) ;;
  match caught with
  | None => ret results
  | Some artist_share =>
      advance <- read (fun self => default Dec.zero (_advances_cache self !! artist_name)) ;;
      let deducted := Dec.min advance artist_share in
      let net := Dec.sub artist_share deducted in
      split_pct <- read (fun self => default Dec.zero (_splits_cache self !! artist_name)) ;;
      ret (results ++
             [mkArtistPayout artist_name quarter gross split_pct
                artist_share deducted net (size tracks) streams])
  end.

Definition calculate (quarter : string) (artist : option string)
    (revenue_data : option (list Row)) : M RoyaltyManager (list ArtistPayout) :=
  let revenue_data := default [] revenue_data in
  let by_artist := group_rows artist revenue_data in
  results <- for_each by_artist (payout_step quarter) [] ;;
  log INFO "Calculated royalties for Q=%s: %d artists"
    [AStr quarter; AInt (Z.of_nat (length results))] ;;;
  ret results.

(** One entry of the list [reconcile] returns; the amounts are the
    decimals whose [str] the dictionary holds. *)
Inductive Discrepancy : Set :=
  | missing_actual (artist quarter : string) (calculated : Decimal)
  | amount_mismatch (artist quarter : string) (calculated actual difference : Decimal).

Definition reconcile (quarter : string) (calculated : option (list ArtistPayout))
    (actual_payouts : option (gmap string Decimal)) : M RoyaltyManager (list Discrepancy) :=
  match calculated, actual_payouts with
  | Some ((_ :: _) as calculated), Some actual_payouts =>
      if bool_decide (size actual_payouts = 0) then ret []
      else
        let discrepancies :=
          fold_left
            (fun discrepancies payout =>
               match actual_payouts !! artist payout with
               | None =>
                   discrepancies ++
                     [missing_actual (artist payout) quarter (net_payout payout)]
               | Some actual =>
                   if negb (Dec.eqb actual (net_payout payout)) then
                     let diff := Dec.sub actual (net_payout payout) in
                     discrepancies ++
                       [amount_mismatch (artist payout) quarter (net_payout payout)
                          actual diff]
                   else discrepancies
               end)
            calculated [] in
        match discrepancies with
        | [] => ret discrepancies
        | _ :: _ =>
            log WARNING "Reconciliation: %d discrepancies for %s"
              [AInt (Z.of_nat (length discrepancies)); AStr quarter] ;;;
            ret discrepancies
        end
  | _, _ => ret []
  end.

(** [set_split] and [set_advance] take a number and store
    [Decimal(str(number))]; the argument here is that decimal. *)
Definition set_split (artist : string) (split_pct : Decimal) : M RoyaltyManager unit :=
  write (fun self =>
           mkRoyaltyManager (<[artist := split_pct]> (_splits_cache self))
             (_advances_cache self)).

Definition set_advance (artist : string) (amount : Decimal) : M RoyaltyManager unit :=
  write (fun self =>
           mkRoyaltyManager (_splits_cache self)
             (<[artist := amount]> (_advances_cache self))).
(** The dictionary under ["payout"] in a report: the [str] of each amount
    of the payout, held as that amount, or ["0"] ([Decimal("0")]) for each
    when there is no payout. *)
Record ReportPayout : Set := mkReportPayout {
  report_gross_revenue : Decimal;
  report_split_pct : Decimal;
  report_artist_share : Decimal;
  report_advance_deducted : Decimal;
  report_net_payout : Decimal
}.

Record Report : Set := mkReport {
  report_artist : string;
  report_quarter : string;
  format : string;
  generated_at : string;
  payout : ReportPayout;
  filename : string
}.

(** [s.replace(" ", "_")] *)
Fixpoint replace_spaces (s : string) : string :=
  match s with
  | EmptyString => EmptyString
  | String c s' =>
      String (if Ascii.eqb c " "%char then "_"%char else c) (replace_spaces s')
  end.

(** [next((p for p in payouts if p.artist == artist), None)] *)
Fixpoint first_payout (artist_name : string) (payouts : list ArtistPayout)
    : option ArtistPayout :=
  match payouts with
  | [] => None
  | p :: rest =>
      if String.eqb (artist p) artist_name then Some p else first_payout artist_name rest
  end.

(** [utcnow] is what [datetime.utcnow().isoformat()] reads during the
    call. *)
Definition generate_report (utcnow : string) (artist_name quarter fmt : string)
    (payouts : option (list ArtistPayout)) : M RoyaltyManager Report :=
  let payout :=
    match payouts with
    | Some ((_ :: _) as payouts) => first_payout artist_name payouts
    | _ => None
    end in
  let amount (field : ArtistPayout -> Decimal) :=
    match payout with
    | Some p => field p
    | None => Dec.zero
    end in
  let report_data :=
    mkReport artist_name quarter fmt utcnow
      (mkReportPayout (amount gross_revenue) (amount split_pct) (amount artist_share)
         (amount advance_deducted) (amount net_payout))
      ("royalty_" +:+ artist_name +:+ "_" +:+ replace_spaces quarter +:+ "." +:+ fmt) in
  log INFO "Report generated: %s" [AStr (filename report_data)] ;;;
  ret report_data.

(** An entry of the list [check_advances] returns. *)
Record Advance : Set := mkAdvance {
  advance_artist : string;
  remaining_balance : Decimal;
  advance_status : string
}.

(** The loop runs over [self._advances_cache.items()].  A [gmap] does not
    keep the insertion order of the dictionary, so the list comes in the
    order of [map_to_list]; what is stated about it below does not depend
    on the order. *)
Definition check_advances (artist : option string) : M RoyaltyManager (list Advance) :=
  items <- read (fun self => map_to_list (_advances_cache self)) ;;
  ret (fold_left
         (fun result '(name, balance) =>
            if truthy artist && negb (bool_decide (Some name = artist)) then result
            else if Dec.ltb Dec.zero balance then
              result ++ [mkAdvance name balance "active"]
            else result)
         items []).

(** The dictionary [get_artist_balance] returns. *)
Record Balance : Set := mkBalance {
  balance_artist : string;
  advance_remaining : Decimal;
  balance_status : string
}.

Definition get_artist_balance (artist : string) : M RoyaltyManager Balance :=
  advance <- read (fun self => default Dec.zero (_advances_cache self !! artist)) ;;
  ret (mkBalance artist advance
         (if Dec.ltb Dec.zero advance then "has_advance" else "clear")).
End royalty_manager.

(** ** agents/contract_manager.py

    Split percentages are Python floats here: IEEE 754 binary64, the
    primitive [float] of Rocq. *)

Module contract_manager.
#[local] Open Scope method_scope.

Record ContractRecord : Set := mkContractRecord {
  artist : string;
  split_pct : float;
  signed_date : option string;
  expiry_date : option string;
  file_path : option string;
  file_type : string;
  status : string;
  notes : string
}.

(** An entry of [_audit_log]. *)
Record AuditEntry : Set := mkAuditEntry {
  timestamp : string;
  audit_artist : string;
  old_split : float;
  new_split : float;
  reason : string;
  changed_by : string
}.

(** Of the fields inherited from [BaseAgent] only [name] is read here. *)
Record ContractManager : Set := mkContractManager {
  name : string;
  contracts : list ContractRecord;
  _audit_log : list AuditEntry
}.

(** An entry of the list [verify_splits] returns. *)
Inductive SplitMismatch : Set :=
  | missing_in_db (artist : string) (contract_split : float)
  | mismatch (artist : string) (contract_split db_split : float).

(** [abs(db_pct - contract.split_pct) > 0.001] *)
Definition differs (db_pct contract_pct : float) : bool :=
  PrimFloat.ltb 0.001%float (PrimFloat.abs (PrimFloat.sub db_pct contract_pct)).

Definition verify_splits (db_splits : option (gmap string float))
    : M ContractManager (list SplitMismatch) :=
  let db_splits := default ∅ db_splits in
  contracts <- read contracts ;;
  let mismatches :=
    fold_left
      (fun mismatches contract =>
         match db_splits !! artist contract with
         | None => mismatches ++ [missing_in_db (artist contract) (split_pct contract)]
         | Some db_pct =>
             if differs db_pct (split_pct contract) then
               mismatches ++ [mismatch (artist contract) (split_pct contract) db_pct]
             else mismatches
         end)
      contracts [] in
  match mismatches with
  | [] => ret mismatches
  | _ :: _ =>
      log WARNING "Split verification: %d mismatches found"
        [AInt (Z.of_nat (length mismatches))] ;;;
      ret mismatches
  end.

(** [for c in self.contracts: if c.artist == artist: contract = c; break]:
    the record the loop stops at, with its position in the list. *)
Fixpoint find_contract (artist_name : string) (contracts : list ContractRecord)
    : option (nat * ContractRecord) :=
  match contracts with
  | [] => None
  | c :: rest =>
      if String.eqb (artist c) artist_name then Some (0%nat, c)
      else prod_map S id <$> find_contract artist_name rest
  end.

(** [contract.split_pct = new_pct] *)
Definition with_split (c : ContractRecord) (new_pct : float) : ContractRecord :=
  mkContractRecord (artist c) new_pct (signed_date c) (expiry_date c)
    (file_path c) (file_type c) (status c) (notes c).

(** [0.0 <= new_pct <= 1.0] *)
Definition in_unit_interval (x : float) : bool :=
  PrimFloat.leb 0%float x && PrimFloat.leb x 1%float.

(** [utcnow] is what [datetime.utcnow().isoformat()] reads during the
    call. *)
Definition update_split (utcnow : string) (artist_name : string) (new_pct : float)
    (reason : string) : M ContractManager AuditEntry :=
  if negb (in_unit_interval new_pct) then
    raise (ContractError
             [AStr "Invalid split percentage: "; AFloat new_pct; AStr ". Must be 0.0-1.0."])
  else
    found <- read (fun self => find_contract artist_name (contracts self)) ;;
    match found with
    | None =>
        raise (ContractError [AStr "Contract not found for artist: "; AStr artist_name])
    | Some (i, contract) =>
        let old_pct := split_pct contract in
        write (fun self =>
                 mkContractManager (name self)
                   (<[i := with_split contract new_pct]> (contracts self))
                   (_audit_log self)) ;;;
        changed_by <- read name ;;
        let audit_entry :=
          mkAuditEntry utcnow artist_name old_pct new_pct reason changed_by in
        write (fun self =>
                 mkContractManager (name self) (contracts self)
                   (_audit_log self ++ [audit_entry])) ;;;
        log INFO "Split updated for %s: %.0f%% -> %.0f%% (%s)"
          [AStr artist_name; AFloat (PrimFloat.mul old_pct 100);
           AFloat (PrimFloat.mul new_pct 100); AStr reason] ;;;
        ret audit_entry
    end.
(** [self.contracts.append(contract)] *)
Definition add_contract (contract : ContractRecord) : M ContractManager unit :=
  write (fun self =>
           mkContractManager (name self) (contracts self ++ [contract])
             (_audit_log self)) ;;;
  log INFO "Contract added for %s (split=%.0f%%)"
    [AStr (artist contract); AFloat (PrimFloat.mul (split_pct contract) 100)].

(** [for contract in self.contracts: if contract.artist == artist: return
    {...}] and [return None] after the loop; the dictionary has the fields
    of the record, and is held as the record. *)
Fixpoint first_contract (artist_name : string) (contracts : list ContractRecord)
    : option ContractRecord :=
  match contracts with
  | [] => None
  | contract :: rest =>
      if String.eqb (artist contract) artist_name then Some contract
      else first_contract artist_name rest
  end.

Definition get_contract_status (artist_name : string)
    : M ContractManager (option ContractRecord) :=
  read (fun self => first_contract artist_name (contracts self)).

(** A value that is an [int] on one path and a [float] on another. *)
Inductive Number : Set :=
  | NInt (n : Z)
  | NFloat (x : float).

Record Summary : Set := mkSummary {
  total : nat;
  active : nat;
  expired : nat;
  placeholders : nat;
  average_split : Number;
  artists_with_files : nat;
  audit_log_entries : nat
}.

Section generate_summary.
(** [sum(xs) / len(xs)] on a non-empty list of floats, as the interpreter
    computes it (the summation of [sum] differs between its versions). *)
Variable average : list float -> float.

Definition generate_summary : M ContractManager Summary :=
  contracts <- read contracts ;;
  let active := List.filter (fun c => String.eqb (status c) "active") contracts in
  let expired := List.filter (fun c => String.eqb (status c) "expired") contracts in
  let placeholders :=
    List.filter (fun c => String.eqb (status c) "placeholder") contracts in
  audit_log <- read _audit_log ;;
  ret (mkSummary (length contracts) (length active) (length expired)
         (length placeholders)
         (match active with
          | [] => NInt 0
          | _ :: _ => NFloat (average (split_pct <$> active))
          end)
         (length (List.filter (fun c => truthy (file_path c)) contracts))
         (length audit_log)).
End generate_summary.
End contract_manager.

(** ** agents/director.py *)

Module director.
#[local] Open Scope method_scope.

Record EscalationRule : Set := mkEscalationRule {
  from_agent : string;
  condition : string;
  action : string  (* notify_admin | auto_resolve | block *)
}.

(** The entry [escalate] appends to [_decision_log]. *)
Record Decision : Set := mkDecision {
  timestamp : string;
  decision_action : string;
  decision_from : string;
  issue_head : string;
  rule_action : string
}.

Record Director : Set := mkDirector {
  escalation_rules : list EscalationRule;
  _decision_log : list Decision
}.

(** The rules [__post_init__] installs when none are given. *)
Definition default_rules : list EscalationRule :=
  [ mkEscalationRule "ROYALTY-ENGINE" "error_in_calculation" "notify_admin";
    mkEscalationRule "CONTRACT-MGR" "split_mismatch" "block";
    mkEscalationRule "DEVOPS-BOT" "deploy_failed" "notify_admin" ].

(** [needle in hay] on strings. *)
Fixpoint contains (needle hay : string) : bool :=
  String.prefix needle hay ||
  match hay with
  | EmptyString => false
  | String _ hay' => contains needle hay'
  end.

(** [s[:n]] on a [str] counts characters.  A string is held here as its
    UTF-8 encoding, in which a character is one byte that is not a
    continuation byte ([10xxxxxx]) and the continuation bytes after it:
    the slice keeps the bytes of the first [n] characters. *)
Definition continuation (c : ascii) : bool :=
  (128 <=? nat_of_ascii c)%nat && (nat_of_ascii c <? 192)%nat.

Fixpoint take_chars (n : nat) (s : string) : string :=
  match s with
  | EmptyString => EmptyString
  | String c s' =>
      if continuation c then String c (take_chars n s')
      else
        match n with
        | O => EmptyString
        | S n' => String c (take_chars n' s')
        end
  end.

Section escalate.
(** [str.lower], which follows the Unicode tables. *)
Variable lower : string -> string.

(** [rule.from_agent == from_agent and rule.condition in issue.lower()] *)
Definition applies (issue from : string) (rule : EscalationRule) : bool :=
  String.eqb (from_agent rule) from && contains (condition rule) (lower issue).

(** The [for rule in self.escalation_rules] loop, left by [return] at
    the first rule that applies, and the default after it. *)
Fixpoint escalate_loop (utcnow issue from : string) (rules : list EscalationRule)
    : M Director (gmap string string) :=
  match rules with
  | [] =>
      ret {[ "action" := "notify_admin";
             "message" := "Unmatched escalation from " +:+ from +:+ ": " +:+ issue ]}
  | rule :: rest =>
      if applies issue from rule then
        write (fun self =>
                 mkDirector (escalation_rules self)
                   (_decision_log self ++
                      [mkDecision utcnow "escalation" from
                         (take_chars 120 issue) (action rule)])) ;;;
        ret {[ "action" := action rule;
               "message" := "Escalation from " +:+ from +:+ ": " +:+ issue ]}
      else escalate_loop utcnow issue from rest
  end.

Definition escalate (utcnow issue from : string) : M Director (gmap string string) :=
  rules <- read escalation_rules ;;
  escalate_loop utcnow issue from rules.
End escalate.
End director.

(** ** agents/base_agent.py *)

Module base_agent.

Record AgentTask : Set := mkAgentTask {
  text : string;
  task_status : string  (* pending | active | done | blocked *)
}.

Record TelegramCommand : Set := mkTelegramCommand {
  command : string;
  command_description : string;
  admin_only : bool
}.

Record BaseAgent : Set := mkBaseAgent {
  name : string;
  codename : string;
  role : string;
  model : string;
  avatar : string;
  color : string;
  specialty : string;
  tools : list string;
  memory : list string;
  tasks : list AgentTask;
  commands : list TelegramCommand;
  status : string;
  description : string;
  portable : bool;
  requires_api : list string
}.

(** An entry of ["tasks"] in a dictionary given to [from_dict]: a
    dictionary of keyword arguments of [AgentTask], where ["status"] may be
    missing, or a bare text. *)
Inductive TaskEntry : Set :=
  | TaskDict (text : string) (status : option string)
  | TaskText (text : string).

(** An entry of ["commands"]: the keyword arguments of [TelegramCommand]. *)
Record CommandDict : Set := mkCommandDict {
  dict_command : string;
  dict_command_description : string;
  dict_admin_only : option bool
}.

(** A dictionary with the keys of the fields of [BaseAgent]: the three
    fields without a default are present, any other key may be missing. *)
Record AgentDict : Set := mkAgentDict {
  dict_name : string;
  dict_codename : string;
  dict_role : string;
  dict_model : option string;
  dict_avatar : option string;
  dict_color : option string;
  dict_specialty : option string;
  dict_tools : option (list string);
  dict_memory : option (list string);
  dict_tasks : option (list TaskEntry);
  dict_commands : option (list CommandDict);
  dict_status : option string;
  dict_description : option string;
  dict_portable : option bool;
  dict_requires_api : option (list string)
}.

Definition to_dict (self : BaseAgent) : AgentDict :=
  mkAgentDict (name self) (codename self) (role self) (Some (model self))
    (Some (avatar self)) None (Some (specialty self)) (Some (tools self))
    (Some (memory self)) None
    (Some ((fun c => mkCommandDict (command c) (command_description c)
                       (Some (admin_only c))) <$> commands self))
    (Some (status self)) None (Some (portable self)) (Some (requires_api self)).

(** [from_dict] pops ["commands"] and ["tasks"] from the dictionary it is
    given, so it returns here the agent and the dictionary as the call
    leaves it. *)
Definition from_dict (data : AgentDict) : BaseAgent * AgentDict :=
  let commands :=
    (fun c => mkTelegramCommand (dict_command c) (dict_command_description c)
                (default false (dict_admin_only c)))
      <$> default [] (dict_commands data) in
  let tasks :=
    (fun t => match t with
              | TaskDict text status => mkAgentTask text (default "pending" status)
              | TaskText text => mkAgentTask text "pending"
              end)
      <$> default [] (dict_tasks data) in
  let data :=
    mkAgentDict (dict_name data) (dict_codename data) (dict_role data)
      (dict_model data) (dict_avatar data) (dict_color data) (dict_specialty data)
      (dict_tools data) (dict_memory data) None None (dict_status data)
      (dict_description data) (dict_portable data) (dict_requires_api data) in
  (mkBaseAgent (dict_name data) (dict_codename data) (dict_role data)
     (default "opus" (dict_model data)) (default "🤖" (dict_avatar data))
     (default "#22c955" (dict_color data)) (default "" (dict_specialty data))
     (default [] (dict_tools data)) (default [] (dict_memory data))
     tasks commands
     (default "planned" (dict_status data)) (default "" (dict_description data))
     (default true (dict_portable data)) (default [] (dict_requires_api data)),
   data).
End base_agent.

(** ** agents/director.py: tasks and agents

    The methods of [Director] that work on its agents.  [Team] holds the
    fields they touch; the entries [delegate] appends to [_decision_log]
    are kept here, those of [escalate] in [director.Director]. *)

Module director_team.
Import base_agent.
#[local] Open Scope method_scope.

(** The entry [delegate] appends to [_decision_log]. *)
Record Delegation : Set := mkDelegation {
  timestamp : string;
  delegation_action : string;
  task_head : string;
  routed_to : string;
  scores : list (string * nat)
}.

Record Team : Set := mkTeam {
  director_name : string;
  task_queue : list AgentTask;
  agents : gmap string BaseAgent;
  _decision_log : list Delegation
}.

Definition ROUTING_RULES : list (string * list string) :=
  [ ("ROYALTY-ENGINE",
     ["роялти"; "royalty"; "выплат"; "сплит"; "split"; "аванс";
      "advance"; "отчёт"; "report"; "баланс"; "balance"; "payout";
      "koala"; "fetch"; "расчёт"]);
    ("CONTRACT-MGR",
     ["контракт"; "contract"; "договор"; "сплит"; "split"; "срок";
      "expir"; "подписа"; "sign"; "юрид"; "legal"; "yandex"; "диск"]);
    ("RELEASE-PIPE",
     ["релиз"; "release"; "трек"; "track"; "альбом"; "album";
      "сингл"; "single"; "площад"; "dsp"; "isrc"; "upc"; "artwork"]);
    ("ANALYTICS-AI",
     ["аналитик"; "analytic"; "тренд"; "trend"; "стрим"; "stream";
      "статистик"; "stats"; "дайджест"; "digest"; "прогноз"; "forecast"]);
    ("DEVOPS-BOT",
     ["деплой"; "deploy"; "бэкап"; "backup"; "health"; "лог"; "log";
      "ci"; "cd"; "docker"; "render"; "сервер"; "server"; "scale"]) ].

Definition PRIORITY_WEIGHTS : list (string * Z) :=
  [ ("urgent", 100%Z); ("financial", 80%Z); ("legal", 70%Z); ("release", 60%Z);
    ("analytics", 40%Z); ("maintenance", 30%Z); ("info", 10%Z) ].

Definition register_agent (agent : BaseAgent) : M Team unit :=
  write (fun self =>
           mkTeam (director_name self) (task_queue self)
             (<[codename agent := agent]> (agents self)) (_decision_log self)) ;;;
  log INFO "Agent registered: %s (%s)" [AStr (name agent); AStr (codename agent)].

(** [sum(1 for kw in keywords if kw in text_lower)] *)
Definition keyword_score (text_lower : string) (keywords : list string) : nat :=
  length (List.filter (fun kw => director.contains kw text_lower) keywords).

(** The loop that fills [scores], a dictionary in insertion order. *)
Definition route_scores (text_lower : string) : list (string * nat) :=
  fold_left
    (fun scores '(codename, keywords) =>
       let score := keyword_score text_lower keywords in
       if (0 <? score)%nat then scores ++ [(codename, score)] else scores)
    ROUTING_RULES [].

(** [max(scores, key=scores.get)] on a non-empty dictionary: the first key,
    in insertion order, whose score no other exceeds. *)
Fixpoint max_score (best : string * nat) (rest : list (string * nat)) : string * nat :=
  match rest with
  | [] => best
  | item :: rest' => max_score (if (snd best <? snd item)%nat then item else best) rest'
  end.

(** The stable sort [sorted(l, key=key, reverse=True)]: descending keys,
    items of equal key in the order they had. *)
Fixpoint insert_desc {A} (key : A -> Z) (x : A) (l : list A) : list A :=
  match l with
  | [] => [x]
  | y :: l' => if (key x <? key y)%Z then y :: insert_desc key x l' else x :: l
  end.

Definition sorted_desc {A} (key : A -> Z) (l : list A) : list A :=
  foldr (insert_desc key) [] l.

(** [self.agents[best].tasks.append(task)] *)
Definition with_task (agent : BaseAgent) (task : AgentTask) : BaseAgent :=
  mkBaseAgent (name agent) (codename agent) (role agent) (model agent) (avatar agent)
    (color agent) (specialty agent) (tools agent) (memory agent)
    (tasks agent ++ [task]) (commands agent) (status agent) (description agent)
    (portable agent) (requires_api agent).

(** What [status_report] says of one agent. *)
Record AgentStatus : Set := mkAgentStatus {
  status_name : string;
  status_role : string;
  agent_status : string;
  tasks_pending : nat;
  tasks_active : nat;
  tasks_done : nat
}.

Record StatusReport : Set := mkStatusReport {
  report_timestamp : string;
  director : string;
  agents_count : nat;
  queue_length : nat;
  report_agents : gmap string AgentStatus
}.

(** [len([t for t in agent.tasks if t.status == s])] *)
Definition count_status (s : string) (agent : BaseAgent) : nat :=
  length (List.filter (fun t => String.eqb (task_status t) s) (tasks agent)).

(** [utcnow] is what [datetime.utcnow().isoformat()] reads during the
    call. *)
Definition status_report (utcnow : string) : M Team StatusReport :=
  self_name <- read director_name ;;
  agents <- read agents ;;
  queue <- read task_queue ;;
  ret (mkStatusReport utcnow self_name (size agents) (length queue)
         ((fun agent =>
             mkAgentStatus (name agent) (role agent) (status agent)
               (count_status "pending" agent) (count_status "active" agent)
               (count_status "done" agent)) <$> agents)).

Section text.
(** [str.lower], which follows the Unicode tables, and [s[:n]], which
    counts characters. *)
Variable lower : string -> string.
Variable head : nat -> string -> string.

(** The task is an object the caller holds: [delegate] returns here, with
    the code name, the task as the call leaves it. *)
Definition delegate (utcnow : string) (task : AgentTask)
    : M Team (option string * AgentTask) :=
  let text_lower := lower (text task) in
  let scores := route_scores text_lower in
  match scores with
  | [] =>
      log WARNING "No agent matched for task: %s" [AStr (head 80 (text task))] ;;;
      ret (None, task)
  | first :: rest =>
      let best := max_score first rest in
      write (fun self =>
               mkTeam (director_name self) (task_queue self) (agents self)
                 (_decision_log self ++
                    [mkDelegation utcnow "delegate" (head 120 (text task))
                       (fst best) scores])) ;;;
      let task := mkAgentTask (text task) "active" in
      write (fun self =>
               match agents self !! fst best with
               | Some agent =>
                   mkTeam (director_name self) (task_queue self)
                     (<[fst best := with_task agent task]> (agents self))
                     (_decision_log self)
               | None => self
               end) ;;;
      log INFO "Task delegated to %s (score=%d): %s"
        [AStr (fst best); AInt (Z.of_nat (snd best)); AStr (head 60 (text task))] ;;;
      ret (Some (fst best), task)
  end.

(** The key of [prioritize]. *)
Definition _score (t : AgentTask) : Z :=
  let text := lower (text t) in
  let score :=
    fold_left
      (fun score '(keyword, weight) =>
         if director.contains keyword text then Z.max score weight else score)
      PRIORITY_WEIGHTS 0%Z in
  if existsb (fun word => director.contains word text)
       ["срочно"; "urgent"; "deadline"; "дедлайн"; "asap"]
  then (score + 50)%Z else score.

Definition prioritize (tasks : list AgentTask) : list AgentTask :=
  sorted_desc _score tasks.
End text.
End director_team.

(** ** Reading the results

    Definitions the statements below are written with. *)



Import royalty_manager.

(** What the loop body appends for one group, read off the caches. *)
Definition payout_of (rm : RoyaltyManager) (quarter : string)
    (item : string * list Row) : option ArtistPayout :=
  let '(gross, streams, tracks) := totals item.2 in
  match _splits_cache rm !! item.1 with
  | None => None
  | Some pct =>
      let share := Dec.quantize_half_up (Dec.mul gross pct) (-2) in
      let deducted := Dec.min (default Dec.zero (_advances_cache rm !! item.1)) share in
      Some (mkArtistPayout item.1 quarter gross pct share deducted
              (Dec.sub share deducted) (size tracks) streams)
  end.

(** What the loop body logs for one group. *)
Definition warning_of (rm : RoyaltyManager) (item : string * list Row) : list LogRecord :=
  match _splits_cache rm !! item.1 with
  | None => [mkLog WARNING "No split for %s, skipping" [AStr item.1]]
  | Some _ => []
  end.

(** The rows [calculate] keeps: those the artist filter does not skip. *)
Definition kept (flt : option string) (data : list Row) : list Row :=
  filter (fun row => skipped flt row = false) data.

(** The rows of one artist among them. *)
Definition rows_of (a : string) (rows : list Row) : list Row :=
  filter (fun row => row_key row = a) rows.

(** The artist a revenue row is credited to, as the specification has it:
    the artist the row names, and "Unknown" for a row that names none. *)
Definition credited (row : Row) : string :=
  match row_artist row with
  | Some a => a
  | None => "Unknown"
  end.

(** The rows a call is about: every row in a call for all artists (no
    filter, or the empty name), the rows credited to the artist asked for
    otherwise. *)
Definition in_scope (flt : option string) (row : Row) : Prop :=
  match flt with
  | None => True
  | Some f => f = "" ∨ credited row = f
  end.

#[global] Instance in_scope_dec (flt : option string) (row : Row) :
  Decision (in_scope flt row).
Proof. unfold in_scope. destruct flt; apply _. Defined.

(** The rows of a batch that count for artist [a] in a call. *)
Definition revenue_rows (flt : option string) (a : string) (data : list Row) : list Row :=
  filter (fun row => credited row = a ∧ in_scope flt row) data.

(** Reading the insertion-ordered dictionary [by_artist] at a key. *)
Fixpoint group_lookup (a : string) (by_artist : list (string * list Row)) : option (list Row) :=
  match by_artist with
  | [] => None
  | (k, rows) :: rest => if String.eqb k a then Some rows else group_lookup a rest
  end.

(** The netting of one payout against the advance ledger [rm] held before
    the call. *)
Definition netting_holds (rm : RoyaltyManager) (p : ArtistPayout) : Prop :=
  let balance := default Dec.zero (_advances_cache rm !! artist p) in
  advance_deducted p = Dec.min balance (artist_share p) ∧
  net_payout p = Dec.sub (artist_share p) (advance_deducted p) ∧
  (Dec.to_Q (net_payout p) == Dec.to_Q (artist_share p) - Dec.to_Q (advance_deducted p))%Q ∧
  (Dec.to_Q (advance_deducted p) <= Dec.to_Q (artist_share p))%Q ∧
  (Dec.to_Q (advance_deducted p) <= Dec.to_Q balance)%Q ∧
  ((0 <= Dec.to_Q (artist_share p))%Q -> (0 <= Dec.to_Q balance)%Q ->
   (0 <= Dec.to_Q (advance_deducted p))%Q).


(** What the specification asks of [reconcile] for one computed payout:
    [missing_actual] when the artist has no actual amount, [amount_mismatch]
    with the signed difference when the amounts differ in value, nothing
    when they agree. *)
Definition expected_discrepancy (quarter : string) (actual_payouts : gmap string Decimal)
    (p : ArtistPayout) : list Discrepancy :=
  match actual_payouts !! artist p with
  | None => [missing_actual (artist p) quarter (net_payout p)]
  | Some actual =>
      if Qeq_dec (Dec.to_Q actual) (Dec.to_Q (net_payout p)) then []
      else [amount_mismatch (artist p) quarter (net_payout p) actual
              (Dec.sub actual (net_payout p))]
  end.

(** The artist a mismatch record is about. *)
Definition mismatch_artist (m : contract_manager.SplitMismatch) : string :=
  match m with
  | contract_manager.missing_in_db a _ => a
  | contract_manager.mismatch a _ _ => a
  end.

(** What [verify_splits] reports for one contract record of the registry,
    against the engine-side map [db_splits]. *)
Definition expected_mismatch (db_splits : gmap string float) (c : contract_manager.ContractRecord)
    : list contract_manager.SplitMismatch :=
  match db_splits !! contract_manager.artist c with
  | None => [contract_manager.missing_in_db (contract_manager.artist c) (contract_manager.split_pct c)]
  | Some db_pct =>
      if contract_manager.differs db_pct (contract_manager.split_pct c)
      then [contract_manager.mismatch (contract_manager.artist c) (contract_manager.split_pct c) db_pct]
      else []
  end.

(** When a rule applies, as the specification words it: the rule is for the
    calling agent and its condition occurs in the lower-cased issue. *)
Definition rule_matches (lower : string -> string) (issue from : string)
    (rule : director.EscalationRule) : Prop :=
  director.from_agent rule = from ∧
  ∃ before after, lower issue = before +:+ director.condition rule +:+ after.

(** Sums over revenue rows, and the log records of the methods. *)




(** The warning [calculate] logs for an artist without a split. *)
Definition no_split_warning (a : string) : LogRecord :=
  mkLog WARNING "No split for %s, skipping" [AStr a].

(** The warning [reconcile] logs when it found [n] discrepancies. *)
Definition reconciliation_warning (n : nat) (q : string) : LogRecord :=
  mkLog WARNING "Reconciliation: %d discrepancies for %s" [AInt (Z.of_nat n); AStr q].

(** The map of actual amounts that pays every payout of a list in full. *)
Definition paid_in_full (payouts : list ArtistPayout) : gmap string Decimal :=
  list_to_map ((fun p => (artist p, net_payout p)) <$> payouts).

(** The amounts a report shows for a payout, and for none. *)
Definition report_of (p : option ArtistPayout) : ReportPayout :=
  match p with
  | Some p =>
      mkReportPayout (gross_revenue p) (split_pct p) (artist_share p)
        (advance_deducted p) (net_payout p)
  | None => mkReportPayout Dec.zero Dec.zero Dec.zero Dec.zero Dec.zero
  end.

(** The warning [verify_splits] logs when it found [n] mismatches. *)
Definition verification_warning (n : nat) : LogRecord :=
  mkLog WARNING "Split verification: %d mismatches found" [AInt (Z.of_nat n)].

(** The statuses [generate_summary] counts. *)
Definition counted_status (c : contract_manager.ContractRecord) : Prop :=
  contract_manager.status c = "active" ∨ contract_manager.status c = "expired" ∨
  contract_manager.status c = "placeholder".

(** The number of characters of a string held in UTF-8: its bytes that do
    not continue a character. *)
Definition continues (c : ascii) : Prop := (128 <= nat_of_ascii c < 192)%nat.

Fixpoint char_count (s : string) : nat :=
  match s with
  | EmptyString => 0
  | String c s' => if decide (continues c) then char_count s' else S (char_count s')
  end.

(** [h] is the first [n] characters of [s], or all of [s] when it has
    fewer: a prefix of [s] with that many characters that ends where a
    character ends. *)
Definition first_chars (n : nat) (s h : string) : Prop :=
  ∃ rest,
    s = h +:+ rest ∧ char_count h = Nat.min n (char_count s) ∧
    match rest with
    | EmptyString => True
    | String c _ => ¬ continues c
    end.

(** A list in descending order of a key. *)
Definition descending {A} (key : A -> Z) : list A -> Prop :=
  StronglySorted (fun x y => (key y <= key x)%Z).

(** The tasks whose lower-cased text contains "urgent". *)
Definition is_urgent (lower : string -> string) (t : base_agent.AgentTask) : Prop :=
  director.contains "urgent" (lower (base_agent.text t)) = true.

#[global] Instance is_urgent_dec (lower : string -> string) (t : base_agent.AgentTask) :
  Decision (is_urgent lower t) :=
  bool_eq_dec (director.contains "urgent" (lower (base_agent.text t))) true.

(** The entry of [scores] a routing rule gives: none when no keyword of
    the rule occurs in the text. *)
Definition routed (text_lower : string) (rule : string * list string) : list (string * nat) :=
  let score := director_team.keyword_score text_lower rule.2 in
  if (0 <? score)%nat then [(rule.1, score)] else [].

(** What [status_report] says of an agent. *)
Definition status_of (agent : base_agent.BaseAgent) : director_team.AgentStatus :=
  director_team.mkAgentStatus (base_agent.name agent) (base_agent.role agent)
    (base_agent.status agent)
    (director_team.count_status "pending" agent)
    (director_team.count_status "active" agent)
    (director_team.count_status "done" agent).

(** ** Values of decimals *)

Section decimal_values.
#[local] Open Scope Q_scope.

Lemma ten_nonzero : ~ inject_Z 10 == 0.
Proof. discriminate. Qed.

Lemma ten_power_pos (e : Z) : 0 < inject_Z 10 ^ e.
Proof. apply Qpower_0_lt. reflexivity. Qed.

(** Rewriting a coefficient with a smaller exponent keeps the value. *)
Lemma to_Q_align (d : Decimal) (e : Z) :
  (e <= exponent d)%Z ->
  inject_Z (Dec.align d e) * inject_Z 10 ^ e == Dec.to_Q d.
Proof.
  intros He. unfold Dec.align, Dec.to_Q.
  rewrite inject_Z_mult, Zpower_Qpower by lia.
  rewrite <- Qmult_assoc, <- Qpower_plus by apply ten_nonzero.
  now replace (exponent d - e + e)%Z with (exponent d) by lia.
Qed.


Lemma to_Q_sub (a b : Decimal) : Dec.to_Q (Dec.sub a b) == Dec.to_Q a - Dec.to_Q b.
Proof.
  rewrite <- (to_Q_align a (Z.min (exponent a) (exponent b))) by lia.
  rewrite <- (to_Q_align b (Z.min (exponent a) (exponent b))) by lia.
  unfold Dec.sub, Dec.to_Q at 1; cbn [coeff exponent].
  unfold Z.sub at 1. rewrite inject_Z_plus, inject_Z_opp. ring.
Qed.

Lemma digits_from_spec (fuel : nat) (k n : Z) :
  (1 <= k)%Z -> (10 ^ (k - 1) <= n)%Z -> (n < 10 ^ (k + Z.of_nat fuel))%Z ->
  (10 ^ (Dec.digits_from fuel k n - 1) <= n < 10 ^ Dec.digits_from fuel k n)%Z.
Proof.
  revert k. induction fuel as [|fuel IH]; intros k Hk Hlo Hhi; cbn [Dec.digits_from].
  - rewrite Z.add_0_r in Hhi. lia.
  - destruct (Z.ltb_spec n (10 ^ k)) as [Hlt|Hge]; [lia|].
    apply IH; [lia| |].
    + by replace (k + 1 - 1)%Z with k by lia.
    + by replace (k + 1 + Z.of_nat fuel)%Z with (k + Z.of_nat (S fuel))%Z by lia.
Qed.

(** [digits] counts the digits: [n] lies between the powers of ten around
    it. *)
Lemma digits_spec (n : Z) :
  n <> 0%Z -> (10 ^ (Dec.digits n - 1) <= Z.abs n < 10 ^ Dec.digits n)%Z.
Proof.
  intros Hn. unfold Dec.digits. apply digits_from_spec; [lia|cbn; lia|].
  rewrite Z2Nat.id by apply Z.log2_nonneg.
  pose proof (Z.log2_spec (Z.abs n) ltac:(lia)) as [_ Hhi].
  pose proof (Z.log2_nonneg (Z.abs n)).
  eapply Z.lt_le_trans; [exact Hhi|].
  replace (Z.succ (Z.log2 (Z.abs n))) with (1 + Z.log2 (Z.abs n))%Z by lia.
  apply Z.pow_le_mono_l. lia.
Qed.


Lemma compare_scaled (x y : Z) (z : Q) :
  0 < z -> (inject_Z x * z ?= inject_Z y * z) = (x ?= y)%Z.
Proof.
  intros Hz. destruct (Z.compare_spec x y) as [->|H|H].
  - apply Qeq_alt. reflexivity.
  - apply Qlt_alt, Qmult_lt_r; [done|]. now rewrite <- Zlt_Qlt.
  - apply Qgt_alt, Qmult_lt_r; [done|]. now rewrite <- Zlt_Qlt.
Qed.

(** The comparison of two decimals is the comparison of their values. *)
Lemma compare_to_Q (a b : Decimal) : Dec.compare a b = (Dec.to_Q a ?= Dec.to_Q b).
Proof.
  rewrite <- (to_Q_align a (Z.min (exponent a) (exponent b))) by lia.
  rewrite <- (to_Q_align b (Z.min (exponent a) (exponent b))) by lia.
  rewrite compare_scaled by apply ten_power_pos. reflexivity.
Qed.

Lemma ltb_to_Q (a b : Decimal) : Dec.ltb a b = true <-> Dec.to_Q a < Dec.to_Q b.
Proof.
  unfold Dec.ltb. rewrite compare_to_Q, Qlt_alt.
  destruct (Dec.to_Q a ?= Dec.to_Q b); intuition congruence.
Qed.

Lemma leb_to_Q (a b : Decimal) : Dec.leb a b = true <-> Dec.to_Q a <= Dec.to_Q b.
Proof.
  unfold Dec.leb. rewrite compare_to_Q, Qle_alt.
  destruct (Dec.to_Q a ?= Dec.to_Q b); intuition congruence.
Qed.

Lemma eqb_to_Q (a b : Decimal) : Dec.eqb a b = true <-> Dec.to_Q a == Dec.to_Q b.
Proof.
  unfold Dec.eqb. rewrite compare_to_Q, Qeq_alt.
  destruct (Dec.to_Q a ?= Dec.to_Q b); intuition congruence.
Qed.

Lemma min_le_l (a b : Decimal) : Dec.to_Q (Dec.min a b) <= Dec.to_Q a.
Proof.
  unfold Dec.min. destruct (Dec.ltb b a) eqn:E.
  - apply Qlt_le_weak, ltb_to_Q, E.
  - apply Qle_refl.
Qed.

Lemma min_le_r (a b : Decimal) : Dec.to_Q (Dec.min a b) <= Dec.to_Q b.
Proof.
  unfold Dec.min. destruct (Dec.ltb b a) eqn:E.
  - apply Qle_refl.
  - apply Qnot_lt_le. rewrite <- ltb_to_Q, E. discriminate.
Qed.

Lemma min_cases (a b : Decimal) : Dec.min a b = a \/ Dec.min a b = b.
Proof. unfold Dec.min. destruct (Dec.ltb b a); auto. Qed.

End decimal_values.

(** ** Rounding half up *)

Section rounding.
#[local] Open Scope Q_scope.







End rounding.

(** ** RoyaltyManager.calculate, step by step *)

Section calculate_runs.

Lemma apply_split_run (revenue : Decimal) (a : string) (env : Env RoyaltyManager) :
  apply_split revenue a env =
    match _splits_cache (self env) !! a with
    | None =>
        (Raised (RoyaltyCalculationError
                   [AStr "Split not found for artist '"; AStr a; AStr "'. ";
                    AStr "Check contracts or set default."]), env)
    | Some pct => (Returned (Dec.quantize_half_up (Dec.mul revenue pct) (-2)), env)
    end.
Proof.
  unfold apply_split, bind, read. cbn.
  destruct (_splits_cache (self env) !! a); reflexivity.
Qed.

Lemma payout_step_run (q : string) (results : list ArtistPayout)
    (item : string * list Row) (env : Env RoyaltyManager) :
  payout_step q results item env =
    (Returned (results ++ option_list (payout_of (self env) q item)),
     mkEnv (self env) (logged env ++ warning_of (self env) item)).
Proof.
  destruct item as [a rows], env as [rm lg].
  unfold payout_step, payout_of, warning_of, bind, try_except. cbn [fst snd].
  destruct (totals rows) as [[gross streams] tracks].
  rewrite apply_split_run. cbn [self logged].
  destruct (_splits_cache rm !! a) as [pct|] eqn:E; cbn.
  - rewrite E. cbn. now rewrite app_nil_r.
  - now rewrite app_nil_r.
Qed.

Lemma for_each_payout_run (q : string) (groups : list (string * list Row))
    (results : list ArtistPayout) (env : Env RoyaltyManager) :
  for_each groups (payout_step q) results env =
    (Returned (results ++ omap (payout_of (self env) q) groups),
     mkEnv (self env) (logged env ++ mjoin (warning_of (self env) <$> groups))).
Proof.
  revert results env. induction groups as [|item groups IH]; intros results env.
  - cbn. rewrite !app_nil_r. now destruct env.
  - cbn [for_each]. unfold bind. rewrite payout_step_run, IH. cbn [self logged].
    f_equal.
    + f_equal. rewrite <- app_assoc. f_equal.
      cbn. now destruct (payout_of (self env) q item).
    + f_equal. now rewrite <- app_assoc.
Qed.

(** [calculate] returns, for every call, the payouts of the groups that
    have a split, in the order of the groups; it leaves the manager as it
    found it and logs one warning per group without a split. *)
Lemma calculate_run (q : string) (flt : option string) (data : option (list Row))
    (env : Env RoyaltyManager) :
  let groups := group_rows flt (default [] data) in
  let results := omap (payout_of (self env) q) groups in
  calculate q flt data env =
    (Returned results,
     mkEnv (self env)
       ((logged env ++ mjoin (warning_of (self env) <$> groups)) ++
        [mkLog INFO "Calculated royalties for Q=%s: %d artists"
           [AStr q; AInt (Z.of_nat (length results))]])).
Proof.
  cbn. unfold calculate, bind. rewrite for_each_payout_run. reflexivity.
Qed.
End calculate_runs.

(** ** The grouping of the revenue rows *)

Section grouping.

Lemma setdefault_lookup_eq (a : string) (row : Row) (acc : list (string * list Row)) :
  group_lookup a (setdefault_append a row acc) =
    Some (default [] (group_lookup a acc) ++ [row]).
Proof.
  induction acc as [|[k rows] acc IH]; cbn.
  - now rewrite String.eqb_refl.
  - destruct (String.eqb_spec k a) as [->|Hne]; cbn.
    + now rewrite String.eqb_refl.
    + apply String.eqb_neq in Hne. now rewrite Hne.
Qed.

Lemma setdefault_lookup_ne (a k : string) (row : Row) (acc : list (string * list Row)) :
  k ≠ a -> group_lookup k (setdefault_append a row acc) = group_lookup k acc.
Proof.
  intros Hne. induction acc as [|[k' rows] acc IH]; cbn.
  - apply not_eq_sym, String.eqb_neq in Hne. now rewrite Hne.
  - destruct (String.eqb_spec k' a) as [->|Hne']; cbn.
    + apply not_eq_sym, String.eqb_neq in Hne. now rewrite Hne.
    + now rewrite IH.
Qed.

Lemma setdefault_keys (a : string) (row : Row) (acc : list (string * list Row)) :
  (setdefault_append a row acc).*1 =
    if decide (a ∈ acc.*1) then acc.*1 else acc.*1 ++ [a].
Proof.
  induction acc as [|[k rows] acc IH]; cbn.
  - destruct (decide (a ∈ [])) as [H|_]; [|done]. by apply elem_of_nil in H.
  - destruct (String.eqb_spec k a) as [->|Hne]; cbn.
    + destruct (decide (a ∈ a :: acc.*1)) as [|H]; [done|]. exfalso. apply H. left.
    + rewrite IH. destruct (decide (a ∈ acc.*1)) as [Hin|Hnin].
      * destruct (decide (a ∈ k :: acc.*1)) as [|H]; [done|]. exfalso. apply H. by right.
      * destruct (decide (a ∈ k :: acc.*1)) as [H|]; [|done].
        apply elem_of_cons in H as [->|H]; done.
Qed.

Lemma setdefault_NoDup (a : string) (row : Row) (acc : list (string * list Row)) :
  NoDup acc.*1 -> NoDup (setdefault_append a row acc).*1.
Proof.
  intros Hnd. rewrite setdefault_keys. destruct (decide (a ∈ acc.*1)); [done|].
  apply NoDup_app. split_and!; [done| |apply NoDup_singleton].
  intros x Hx ->%list_elem_of_singleton. done.
Qed.

Lemma group_lookup_None (a : string) (acc : list (string * list Row)) :
  group_lookup a acc = None <-> a ∉ acc.*1.
Proof.
  induction acc as [|[k rows] acc IH]; cbn.
  - split; [intros _; apply not_elem_of_nil|done].
  - rewrite not_elem_of_cons. destruct (String.eqb_spec k a) as [->|Hne].
    + split; [done|]. intros [? _]. done.
    + rewrite IH. split; [intros ?; split; [congruence|done]|intros [_ ?]; done].
Qed.

Lemma group_lookup_elem (a : string) (rows : list Row) (acc : list (string * list Row)) :
  NoDup acc.*1 -> (a, rows) ∈ acc <-> group_lookup a acc = Some rows.
Proof.
  induction acc as [|[k rows'] acc IH]; cbn; intros Hnd.
  - split; [intros H; by apply elem_of_nil in H|done].
  - apply NoDup_cons in Hnd as [Hk Hnd]. rewrite elem_of_cons.
    destruct (String.eqb_spec k a) as [->|Hne].
    + split.
      * intros [[= ->]|Hin]; [done|]. exfalso. apply Hk.
        apply list_elem_of_fmap. by exists (a, rows).
      * intros [= ->]. by left.
    + rewrite <- IH by done. split; [intros [[= -> ->]|?]; done|by right].
Qed.

Lemma kept_cons (flt : option string) (row : Row) (data : list Row) :
  kept flt (row :: data) = if skipped flt row then kept flt data else row :: kept flt data.
Proof.
  unfold kept. rewrite filter_cons. destruct (skipped flt row).
  - by rewrite decide_False.
  - by rewrite decide_True.
Qed.

(** The dictionary [by_artist] after the grouping loop: no key twice, and
    under each key the kept rows of that artist, in their order. *)
Lemma group_rows_spec (flt : option string) (data : list Row) :
  NoDup (group_rows flt data).*1 ∧
  ∀ a, group_lookup a (group_rows flt data) =
         match rows_of a (kept flt data) with
         | [] => None
         | rows => Some rows
         end.
Proof.
  unfold group_rows.
  cut (∀ acc seen,
         NoDup acc.*1 ->
         (∀ a, group_lookup a acc = match rows_of a seen with [] => None | rows => Some rows end) ->
         let res := fold_left
                      (fun by_artist row =>
                         if skipped flt row then by_artist
                         else setdefault_append (row_key row) row by_artist) data acc in
         NoDup res.*1 ∧
         ∀ a, group_lookup a res =
                match rows_of a (seen ++ kept flt data) with
                | [] => None
                | rows => Some rows
                end).
  { intros H. apply (H [] []); [apply NoDup_nil_2|done]. }
  induction data as [|row data IH]; intros acc seen Hnd Hacc; cbn [fold_left].
  - cbn. rewrite app_nil_r. done.
  - rewrite kept_cons. destruct (skipped flt row) eqn:Hs.
    + by apply IH.
    + specialize (IH (setdefault_append (row_key row) row acc) (seen ++ [row])).
      rewrite <- app_assoc in IH. apply IH.
      * by apply setdefault_NoDup.
      * intros a. unfold rows_of. rewrite filter_app, filter_cons, filter_nil.
        destruct (decide (row_key row = a)) as [<-|Hne].
        -- rewrite setdefault_lookup_eq, Hacc. unfold rows_of.
           destruct (filter _ seen); done.
        -- rewrite setdefault_lookup_ne, Hacc, app_nil_r by done. done.
Qed.

Lemma group_rows_elem (flt : option string) (data : list Row) (a : string) (rows : list Row) :
  (a, rows) ∈ group_rows flt data <-> rows = rows_of a (kept flt data) ∧ rows ≠ [].
Proof.
  destruct (group_rows_spec flt data) as [Hnd Hl].
  rewrite group_lookup_elem, Hl by done.
  destruct (rows_of a (kept flt data)); split; try done.
  - intros [-> H]. done.
  - intros [= <-]. done.
  - intros [-> _]. done.
Qed.
End grouping.

(** ** Advance netting *)

Section calculate_properties.

Lemma payout_of_artist (rm : RoyaltyManager) (q : string) (item : string * list Row)
    (p : ArtistPayout) :
  payout_of rm q item = Some p -> artist p = item.1 ∧ is_Some (_splits_cache rm !! item.1).
Proof.
  unfold payout_of. destruct (totals item.2) as [[gross streams] tracks].
  destruct (_splits_cache rm !! item.1); [|done]. intros [= <-]. split; [done|by eexists].
Qed.

Lemma payout_of_netting (rm : RoyaltyManager) (q : string) (item : string * list Row)
    (p : ArtistPayout) :
  payout_of rm q item = Some p -> netting_holds rm p.
Proof.
  unfold payout_of, netting_holds. destruct (totals item.2) as [[gross streams] tracks].
  destruct (_splits_cache rm !! item.1) as [pct|]; [|done]. intros [= <-].
  cbn [artist net_payout artist_share advance_deducted].
  set (share := Dec.quantize_half_up (Dec.mul gross pct) (-2)).
  set (balance := default Dec.zero (_advances_cache rm !! item.1)).
  split_and!.
  - reflexivity.
  - reflexivity.
  - apply to_Q_sub.
  - apply min_le_r.
  - apply min_le_l.
  - intros Hs Hb. destruct (min_cases balance share) as [-> | ->]; assumption.
Qed.

Lemma payouts_artists_sublist (rm : RoyaltyManager) (q : string)
    (groups : list (string * list Row)) :
  sublist (artist <$> omap (payout_of rm q) groups) groups.*1.
Proof.
  induction groups as [|item groups IH]; cbn; [constructor|].
  destruct (payout_of rm q item) as [p|] eqn:E; cbn.
  - apply payout_of_artist in E as [-> _]. by constructor.
  - by constructor.
Qed.

Lemma calculate_returns (q : string) (flt : option string) (data : option (list Row))
    (env : Env RoyaltyManager) :
  (calculate q flt data env).1 =
    Returned (omap (payout_of (self env) q) (group_rows flt (default [] data))).
Proof. by rewrite calculate_run. Qed.

Lemma calculate_result_elem (q : string) (flt : option string) (data : list Row)
    (rm : RoyaltyManager) (p : ArtistPayout) :
  p ∈ omap (payout_of rm q) (group_rows flt data) <->
  rows_of (artist p) (kept flt data) ≠ [] ∧
  payout_of rm q (artist p, rows_of (artist p) (kept flt data)) = Some p.
Proof.
  rewrite list_elem_of_omap. split.
  - intros ([a rows] & Hin & Hp). pose proof (payout_of_artist _ _ _ _ Hp) as [Ha _].
    cbn in Ha. subst a. apply group_rows_elem in Hin as [-> Hne]. done.
  - intros [Hne Hp]. eexists. split; [|exact Hp]. by apply group_rows_elem.
Qed.



(** C2.  [calculate] leaves the advance ledger and the share table as they
    were, whatever the quarter, the artist filter and the revenue rows. *)
Theorem calculate_leaves_caches (q : string) (flt : option string)
    (data : option (list Row)) (env : Env RoyaltyManager) :
  _advances_cache (self (calculate q flt data env).2) = _advances_cache (self env) ∧
  _splits_cache (self (calculate q flt data env).2) = _splits_cache (self env).
Proof. by rewrite calculate_run. Qed.

End calculate_properties.

(** ** Rounding of the artist share *)

Section calculate_batches.
#[local] Open Scope Q_scope.





End calculate_batches.

(** ** Artists without a split, rows without an artist *)

Section missing_splits.

Lemma payout_of_Some (rm : RoyaltyManager) (q : string) (item : string * list Row) :
  is_Some (_splits_cache rm !! item.1) -> is_Some (payout_of rm q item).
Proof.
  intros [pct H]. unfold payout_of. destruct (totals item.2) as [[gross streams] tracks].
  rewrite H. by eexists.
Qed.

Lemma calculate_logs_warning (q : string) (flt : option string) (data : list Row)
    (env : Env RoyaltyManager) (a : string) :
  _splits_cache (self env) !! a = None ->
  rows_of a (kept flt data) ≠ [] ->
  mkLog WARNING "No split for %s, skipping" [AStr a]
    ∈ logged (calculate q flt (Some data) env).2.
Proof.
  intros Hnone Hrows. rewrite calculate_run. cbn [snd logged default].
  apply elem_of_app. left. apply elem_of_app. right.
  apply list_elem_of_join. exists (warning_of (self env) (a, rows_of a (kept flt data))).
  split.
  - unfold warning_of. cbn [fst]. rewrite Hnone. apply list_elem_of_singleton. done.
  - apply list_elem_of_fmap. eexists. split; [done|]. by apply group_rows_elem.
Qed.

(** The rows the loop of [calculate] groups under a name are the rows of
    the batch credited to it and in the scope of the call. *)
Lemma credited_key (row : Row) : row_key row = credited row.
Proof. unfold row_key, credited. by destruct (row_artist row). Qed.

Lemma skipped_scope (flt : option string) (row : Row) :
  skipped flt row = false <-> in_scope flt row.
Proof.
  unfold skipped, in_scope. rewrite credited_key. destruct flt as [f|]; cbn [truthy]; [|done].
  destruct (String.eqb_spec f "") as [->|Hf]; cbn [negb andb].
  - split; [by left|done].
  - rewrite negb_false_iff, bool_decide_eq_true. split.
    + intros [= <-]. by right.
    + intros [?| <-]; done.
Qed.

Lemma revenue_rows_kept (flt : option string) (a : string) (data : list Row) :
  revenue_rows flt a data = rows_of a (kept flt data).
Proof.
  unfold revenue_rows, rows_of, kept. rewrite list_filter_filter.
  apply list_filter_iff. intros row.
  pose proof (credited_key row) as Hk. pose proof (skipped_scope flt row) as Hs.
  cbn beta. rewrite Hk. tauto.
Qed.

(** C7.  For every revenue batch, [calculate] returns.  Every payout it
    returns is of an artist that has a share entry and a row of the batch;
    no artist without a share entry is in the list, and a warning is logged
    for each such artist that has a row; and every artist that has a share
    entry and a row gets a payout (one per artist, at that share, computed
    from the rows of that artist), whatever other artists lack a split.
    The rows of an artist are the rows of the batch that name the artist
    (or name none, for "Unknown"), and in a call for one artist only the
    rows of that artist count. *)
Theorem calculate_skips_missing_split (q : string) (flt : option string)
    (data : list Row) (env : Env RoyaltyManager) :
  let rm := self env in
  let rows a := revenue_rows flt a data in
  ∃ results,
    (calculate q flt (Some data) env).1 = Returned results ∧
    (∀ p, p ∈ results ->
          is_Some (_splits_cache rm !! artist p) ∧ rows (artist p) ≠ []) ∧
    (∀ a, _splits_cache rm !! a = None -> rows a ≠ [] ->
          (∀ p, p ∈ results -> artist p ≠ a) ∧
          mkLog WARNING "No split for %s, skipping" [AStr a]
            ∈ logged (calculate q flt (Some data) env).2) ∧
    (∀ a pct, _splits_cache rm !! a = Some pct -> rows a ≠ [] ->
          ∃ p, p ∈ results ∧ artist p = a ∧ split_pct p = pct ∧
               payout_of rm q (a, rows a) = Some p) ∧
    NoDup (artist <$> results).
Proof.
  intros rm rows. subst rm rows. eexists. split; [apply calculate_returns|]. cbn [default].
  split_and!.
  - intros p Hp. rewrite revenue_rows_kept.
    pose proof Hp as [Hrows _]%calculate_result_elem.
    apply list_elem_of_omap in Hp as (item & _ & Hp).
    apply payout_of_artist in Hp as [Ha Hs]. rewrite Ha in *. by split.
  - intros a Hnone Hrows. rewrite revenue_rows_kept in Hrows.
    split; [|by apply calculate_logs_warning].
    intros p (item & _ & Hp)%list_elem_of_omap <-.
    apply payout_of_artist in Hp as [Ha [pct Hs]]. congruence.
  - intros a pct Hsome Hrows. rewrite revenue_rows_kept in *.
    destruct (payout_of_Some (self env) q (a, rows_of a (kept flt data))) as [p Hp];
      [cbn [fst]; by rewrite Hsome|].
    pose proof (payout_of_artist _ _ _ _ Hp) as [Ha _]. cbn in Ha.
    exists p. split_and!; [|done| |done].
    + apply calculate_result_elem. rewrite Ha. done.
    + unfold payout_of in Hp. cbn [fst snd] in Hp.
      destruct (totals _) as [[gross streams] tracks]. rewrite Hsome in Hp.
      by injection Hp as <-.
  - eapply sublist_NoDup; [apply (proj1 (group_rows_spec flt data))|].
    apply payouts_artists_sublist.
Qed.

(** A batch of two rows of Carol, who has no share entry, around one row of
    Bob at 80%: Bob is paid 400.00 of his 500.00, Carol is not in the list
    and the log has her warning. *)
Lemma calculate_skips_missing_split_witness :
  let data := [mkRow (Some "Carol") (Some (mkDecimal 100 0)) None None;
               mkRow (Some "Bob") (Some (mkDecimal 50000 (-2))) None None;
               mkRow (Some "Carol") (Some (mkDecimal 725 (-2))) None None] in
  let env := mkEnv (mkRoyaltyManager {[ "Bob" := mkDecimal 8 (-1) ]} ∅) [] in
  ∃ results p,
    (calculate "Q4 2025" None (Some data) env).1 = Returned results ∧
    p ∈ results ∧ artist p = "Bob" ∧
    gross_revenue p = mkDecimal 50000 (-2) ∧ artist_share p = mkDecimal 40000 (-2) ∧
    (∀ p', p' ∈ results -> artist p' ≠ "Carol") ∧
    mkLog WARNING "No split for %s, skipping" [AStr "Carol"]
      ∈ logged (calculate "Q4 2025" None (Some data) env).2.
Proof.
  intros data env.
  destruct (calculate_skips_missing_split "Q4 2025" None data env)
    as (results & Hrun & _ & Hnone & Hsome & _).
  destruct (Hsome "Bob" (mkDecimal 8 (-1))) as (p & Hp & Ha & _ & Hpay);
    [vm_compute; reflexivity|vm_compute; discriminate|].
  destruct (Hnone "Carol") as [Hout Hlog];
    [vm_compute; reflexivity|vm_compute; discriminate|].
  exists results, p. split_and!; [exact Hrun|exact Hp|exact Ha| | |exact Hout|exact Hlog].
  - vm_compute in Hpay. by injection Hpay as <-.
  - vm_compute in Hpay. by injection Hpay as <-.
Defined.

(** C10.  A revenue row without an artist identifier is grouped under the
    name "Unknown".  In a call for all artists (no filter, or the empty
    one) or for the artist "Unknown", the row is among the rows of
    "Unknown"; with a share entry for "Unknown" those rows give an ordinary
    payout under that name, and without one they are skipped with the
    warning every artist without a split gets. *)
Theorem calculate_unnamed_rows (q : string) (flt : option string) (data : list Row)
    (env : Env RoyaltyManager) (row : Row) :
  row ∈ data -> row_artist row = None ->
  flt = None ∨ flt = Some "" ∨ flt = Some "Unknown" ->
  let rows := rows_of "Unknown" (kept flt data) in
  row_key row = "Unknown" ∧ row ∈ rows ∧
  ∃ results,
    (calculate q flt (Some data) env).1 = Returned results ∧
    match _splits_cache (self env) !! "Unknown" with
    | Some pct =>
        ∃ p, p ∈ results ∧ artist p = "Unknown" ∧
             payout_of (self env) q ("Unknown", rows) = Some p ∧
             split_pct p = pct ∧ gross_revenue p = (totals rows).1.1
    | None =>
        (∀ p, p ∈ results -> artist p ≠ "Unknown") ∧
        mkLog WARNING "No split for %s, skipping" [AStr "Unknown"]
          ∈ logged (calculate q flt (Some data) env).2
    end.
Proof.
  intros Hin Hnone Hflt rows.
  assert (Hkey : row_key row = "Unknown") by (unfold row_key; by rewrite Hnone).
  assert (Hkept : skipped flt row = false).
  { unfold skipped. rewrite Hkey. by destruct Hflt as [-> | [-> | ->]]. }
  assert (Hrow : row ∈ rows).
  { unfold rows, rows_of, kept. rewrite !list_elem_of_filter. done. }
  assert (Hne : rows ≠ []) by (intros E; rewrite E in Hrow; by apply elem_of_nil in Hrow).
  split; [done|]. split; [done|].
  eexists. split; [apply calculate_returns|]. cbn [default].
  destruct (_splits_cache (self env) !! "Unknown") as [pct|] eqn:E.
  - destruct (payout_of_Some (self env) q ("Unknown", rows)) as [p Hp];
      [cbn [fst]; by rewrite E|].
    pose proof (payout_of_artist _ _ _ _ Hp) as [Ha _]. cbn [fst] in Ha.
    exists p. split; [apply calculate_result_elem; by rewrite Ha|].
    split; [done|]. split; [done|].
    unfold payout_of in Hp. cbn [fst snd] in Hp.
    destruct (totals rows) as [[gross streams] tracks]. rewrite E in Hp.
    by injection Hp as <-.
  - split; [|by apply calculate_logs_warning].
    intros p (item & _ & Hp)%list_elem_of_omap Ha.
    apply payout_of_artist in Hp as [Hi [pct Hs]]. congruence.
Qed.
(** A batch of one named and two unnamed rows, with a 50% share for
    "Unknown". *)
Lemma calculate_unnamed_rows_witness :
  let rm := mkRoyaltyManager {[ "Unknown" := mkDecimal 5 (-1) ]} ∅ in
  let unnamed := mkRow None (Some (mkDecimal 1000 (-2))) (Some 3%Z) (Some "t1") in
  let data := [mkRow (Some "A") (Some (mkDecimal 700 (-2))) None None; unnamed;
               mkRow None (Some (mkDecimal 250 (-2))) (Some 4%Z) (Some "t2")] in
  ∃ results p,
    (calculate "Q4 2025" None (Some data) (mkEnv rm [])).1 = Returned results ∧
    p ∈ results ∧ artist p = "Unknown" ∧
    gross_revenue p = mkDecimal 1250 (-2) ∧ artist_share p = mkDecimal 625 (-2).
Proof.
  intros rm unnamed data.
  destruct (calculate_unnamed_rows "Q4 2025" None data (mkEnv rm []) unnamed)
    as (_ & _ & results & Hrun & Hcase).
  - right. left.
  - reflexivity.
  - left. reflexivity.
  - change (_splits_cache (self (mkEnv rm [])) !! "Unknown") with (Some (mkDecimal 5 (-1)))
      in Hcase.
    destruct Hcase as (p & Hp & Ha & Hpay & _ & Hgross).
    exists results, p. split; [exact Hrun|]. split; [exact Hp|]. split; [exact Ha|].
    split; [rewrite Hgross; vm_compute; reflexivity|].
    vm_compute in Hpay. injection Hpay as <-. reflexivity.
Defined.
End missing_splits.

(** ** RoyaltyManager.reconcile *)

Section reconciliation.

(** A loop that only appends to its accumulator. *)
Lemma fold_left_append {A B : Type} (f : A -> list B) (step : list B -> A -> list B)
    (l : list A) (acc : list B) :
  (∀ acc x, step acc x = acc ++ f x) ->
  fold_left step l acc = acc ++ mjoin (f <$> l).
Proof.
  intros Hstep. revert acc. induction l as [|x l IH]; intros acc; cbn.
  - by rewrite app_nil_r.
  - by rewrite IH, Hstep, <- app_assoc.
Qed.

Lemma reconcile_run (q : string) (p : ArtistPayout) (ps : list ArtistPayout)
    (actual : gmap string Decimal) (env : Env RoyaltyManager) :
  actual ≠ ∅ ->
  let ds := mjoin (expected_discrepancy q actual <$> (p :: ps)) in
  reconcile q (Some (p :: ps)) (Some actual) env =
    (Returned ds,
     mkEnv (self env)
       (logged env ++
          match ds with
          | [] => []
          | _ => [mkLog WARNING "Reconciliation: %d discrepancies for %s"
                    [AInt (Z.of_nat (length ds)); AStr q]]
          end)).
Proof.
  intros Hne ds. unfold reconcile.
  rewrite bool_decide_eq_false_2 by (by intros ?%map_size_empty_iff).
  rewrite (fold_left_append (expected_discrepancy q actual)).
  - rewrite app_nil_l. fold ds. destruct ds; destruct env; cbn; by rewrite ?app_nil_r.
  - intros acc x. unfold expected_discrepancy.
    destruct (actual !! artist x) as [amount|]; [|done].
    destruct (Qeq_dec _ _) as [E|E].
    + apply eqb_to_Q in E. rewrite E. cbn. by rewrite app_nil_r.
    + destruct (Dec.eqb amount (net_payout x)) eqn:E'; [|done].
      by apply eqb_to_Q in E'.
Qed.



End reconciliation.

(** ** ContractManager.verify_splits *)

Import contract_manager.

Section split_consistency.

Lemma verify_splits_run (db : option (gmap string float)) (env : Env ContractManager) :
  let ms := mjoin (expected_mismatch (default ∅ db) <$> contracts (self env)) in
  verify_splits db env =
    (Returned ms,
     mkEnv (self env)
       (logged env ++
          match ms with
          | [] => []
          | _ => [mkLog WARNING "Split verification: %d mismatches found"
                    [AInt (Z.of_nat (length ms))]]
          end)).
Proof.
  intros ms. unfold verify_splits, bind, read. cbn [fst snd].
  rewrite (fold_left_append (expected_mismatch (default ∅ db))).
  - rewrite app_nil_l. fold ms. destruct ms; destruct env; cbn; by rewrite ?app_nil_r.
  - intros acc c. unfold expected_mismatch.
    destruct (default ∅ db !! contract_manager.artist c) as [d|]; [|done].
    destruct (differs d (contract_manager.split_pct c)); [done|by rewrite app_nil_r].
Qed.

Lemma expected_mismatch_artist (db : gmap string float) (c : ContractRecord) (m : SplitMismatch) :
  m ∈ expected_mismatch db c -> mismatch_artist m = contract_manager.artist c.
Proof.
  unfold expected_mismatch. destruct (db !! contract_manager.artist c) as [d|].
  - destruct (differs d (contract_manager.split_pct c)).
    + by intros ->%list_elem_of_singleton.
    + by intros ?%elem_of_nil.
  - by intros ->%list_elem_of_singleton.
Qed.

Lemma mjoin_cons {A : Type} (l : list A) (ls : list (list A)) :
  mjoin (l :: ls) = l ++ mjoin ls.
Proof. reflexivity. Qed.

Lemma filter_all {A : Type} (P : A -> Prop) `{!∀ x, Decision (P x)} (l : list A) :
  (∀ x, x ∈ l -> P x) -> filter P l = l.
Proof.
  induction l as [|x l IH]; intros Hall; [done|].
  rewrite filter_cons, decide_True by (apply Hall; left).
  f_equal. apply IH. intros y Hy. apply Hall. by right.
Qed.

Lemma filter_none {A : Type} (P : A -> Prop) `{!∀ x, Decision (P x)} (l : list A) :
  (∀ x, x ∈ l -> ¬ P x) -> filter P l = [].
Proof.
  induction l as [|x l IH]; intros Hnone; [done|].
  rewrite filter_cons, decide_False by (apply Hnone; left).
  apply IH. intros y Hy. apply Hnone. by right.
Qed.

(** The records about one artist come from the contract records of that
    artist. *)
Lemma mismatches_of_artist (db : gmap string float) (a : string) (cs : list ContractRecord) :
  filter (fun m => mismatch_artist m = a) (mjoin (expected_mismatch db <$> cs)) =
  mjoin (expected_mismatch db <$> filter (fun c => contract_manager.artist c = a) cs).
Proof.
  induction cs as [|c cs IH]; [done|].
  rewrite fmap_cons, mjoin_cons, filter_app, IH, filter_cons.
  destruct (decide (contract_manager.artist c = a)) as [E|E].
  - rewrite fmap_cons, mjoin_cons. f_equal.
    apply filter_all. intros m Hm. by rewrite (expected_mismatch_artist _ _ _ Hm).
  - rewrite filter_none; [done|].
    intros m Hm. by rewrite (expected_mismatch_artist _ _ _ Hm).
Qed.

(** C4 (as amended).  [verify_splits] walks the contract registry, not the
    engine's table: every contract record whose artist is absent from the
    engine-side map gives exactly one [missing_in_db] record, every record
    returned is about an artist of the registry, and an artist that only
    the engine-side map knows gives no record. *)
Theorem verify_splits_follows_registry (db : option (gmap string float))
    (env : Env ContractManager) :
  let registry := contracts (self env) in
  let engine := default ∅ db in
  ∃ ms,
    (verify_splits db env).1 = Returned ms ∧
    ms = mjoin (expected_mismatch engine <$> registry) ∧
    (∀ a, engine !! a = None ->
       filter (fun m => mismatch_artist m = a) ms =
       (fun c => missing_in_db a (contract_manager.split_pct c))
         <$> filter (fun c => contract_manager.artist c = a) registry) ∧
    (∀ m, m ∈ ms -> ∃ c, c ∈ registry ∧ mismatch_artist m = contract_manager.artist c) ∧
    (∀ a, (∀ c, c ∈ registry -> contract_manager.artist c ≠ a) ->
       ∀ m, m ∈ ms -> mismatch_artist m ≠ a).
Proof.
  intros registry engine. eexists. rewrite verify_splits_run.
  split; [done|]. split; [done|]. fold engine registry. split_and!.
  - intros a Ha. rewrite mismatches_of_artist.
    induction registry as [|c cs IH]; [done|].
    rewrite filter_cons. destruct (decide (contract_manager.artist c = a)) as [E|E]; [|done].
    rewrite !fmap_cons, mjoin_cons, IH. unfold expected_mismatch. by rewrite E, Ha.
  - intros m (l & Hin & (c & -> & Hc)%list_elem_of_fmap)%list_elem_of_join.
    exists c. split; [done|]. by apply expected_mismatch_artist in Hin.
  - intros a Hnone m (l & Hin & (c & -> & Hc)%list_elem_of_fmap)%list_elem_of_join.
    rewrite (expected_mismatch_artist _ _ _ Hin). by apply Hnone.
Qed.

(** C4, as stated, fails in both directions: artist "A", tracked by the
    engine and absent from the registry, gives no record, and artist "B",
    present only in the registry, is reported ([missing_in_db]). *)
Lemma verify_splits_engine_only_artist :
  let env := mkEnv (mkContractManager "Max"
                      [mkContractRecord "B" 0.5 None None None "pdf" "active" ""] []) [] in
  let engine : gmap string float := {[ "A" := 0.7%float ]} in
  engine !! "A" = Some 0.7%float ∧ engine !! "B" = None ∧
  (verify_splits (Some engine) env).1 = Returned [missing_in_db "B" 0.5].
Proof. split_and!; reflexivity. Qed.

(** Equal fractions never differ, whatever the float (infinities and NaN
    included: their difference is NaN, which exceeds nothing). *)
Lemma differs_same (x : float) : differs x x = false.
Proof.
  unfold differs. rewrite ltb_spec, abs_spec, sub_spec.
  destruct (Prim2SF x) as [s|s| |s m e]; try reflexivity.
  - destruct s; reflexivity.
  - destruct s; reflexivity.
  - unfold SF64sub, SFsub. rewrite Z.sub_diag. reflexivity.
Qed.

(** What [verify_splits] reports about the records of one artist, who has
    the fraction [db_pct] in the engine-side map: a [mismatch] for each
    record whose fraction is more than 0.001 away. *)
Lemma mismatches_of_records (db : gmap string float) (a : string) (db_pct : float)
    (cs : list ContractRecord) :
  db !! a = Some db_pct ->
  Forall (fun c => contract_manager.artist c = a) cs ->
  mjoin (expected_mismatch db <$> cs) =
    (fun c => mismatch a (contract_manager.split_pct c) db_pct) <$>
      filter (fun c => PrimFloat.ltb 0.001
                         (PrimFloat.abs (PrimFloat.sub db_pct (contract_manager.split_pct c)))
                       = true) cs.
Proof.
  intros Hdb. induction 1 as [|c cs Hc Hcs IH]; [done|].
  rewrite fmap_cons, mjoin_cons, IH, filter_cons.
  unfold expected_mismatch, differs. rewrite Hc, Hdb.
  destruct (PrimFloat.ltb _ _) eqn:E.
  - by rewrite decide_True.
  - by rewrite decide_False.
Qed.

(** C8 (as amended).  For an artist with an entry in the engine-side map,
    [verify_splits] returns about that artist one [mismatch] record,
    carrying both fractions, for each contract record of the artist whose
    fraction is more than 0.001 away from the engine's, in the order of the
    registry, and no other record: one record or none for an artist with
    one contract record.  0.60 against 0.65 exceeds the tolerance; equal
    fractions and a gap of 0.0005 do not. *)
Theorem verify_splits_tolerance (db : gmap string float) (env : Env ContractManager)
    (a : string) (db_pct : float) :
  db !! a = Some db_pct ->
  (∃ ms,
     (verify_splits (Some db) env).1 = Returned ms ∧
     filter (fun m => mismatch_artist m = a) ms =
       (fun c => mismatch a (contract_manager.split_pct c) db_pct) <$>
         filter (fun c => PrimFloat.ltb 0.001
                            (PrimFloat.abs
                               (PrimFloat.sub db_pct (contract_manager.split_pct c)))
                          = true)
           (filter (fun c => contract_manager.artist c = a) (contracts (self env)))) ∧
  differs 0.6 0.65 = true ∧ (∀ x, differs x x = false) ∧ differs 0.6 0.6005 = false.
Proof.
  intros Hdb. split; [|split; [by vm_compute|split; [apply differs_same|by vm_compute]]].
  eexists. rewrite verify_splits_run. split; [done|].
  change (default ∅ (Some db)) with db.
  rewrite mismatches_of_artist. apply mismatches_of_records; [done|].
  apply Forall_forall. by intros c [Hc _]%list_elem_of_filter.
Qed.

(** Two records of "A", one 0.05 and one 0.0005 away from the engine's
    0.6, around a record of "B". *)
Lemma verify_splits_tolerance_witness :
  ∃ ms,
    (verify_splits (Some {[ "A" := 0.6%float; "B" := 0.5%float ]})
       (mkEnv (mkContractManager "Max"
                 [mkContractRecord "A" 0.65 None None None "pdf" "active" "";
                  mkContractRecord "B" 0.5005 None None None "pdf" "active" "";
                  mkContractRecord "A" 0.6005 None None None "pdf" "active" ""] []) [])).1
      = Returned ms ∧
    filter (fun m => mismatch_artist m = "A") ms = [mismatch "A" 0.65 0.6].
Proof.
  destruct (verify_splits_tolerance {[ "A" := 0.6%float; "B" := 0.5%float ]}
              (mkEnv (mkContractManager "Max"
                 [mkContractRecord "A" 0.65 None None None "pdf" "active" "";
                  mkContractRecord "B" 0.5005 None None None "pdf" "active" "";
                  mkContractRecord "A" 0.6005 None None None "pdf" "active" ""] []) [])
              "A" 0.6%float)
    as [(ms & Hrun & Hms) _]; [vm_compute; reflexivity|].
  exists ms. split; [exact Hrun|]. rewrite Hms. vm_compute. reflexivity.
Defined.

(** C8, as stated, fails: the registry is a list, and an artist with two
    contract records, both 0.05 and more away from the engine's fraction,
    gets two [mismatch] records, not one. *)
Lemma verify_splits_two_records :
  (verify_splits (Some {[ "A" := 0.6%float ]})
     (mkEnv (mkContractManager "Max"
               [mkContractRecord "A" 0.65 None None None "pdf" "active" "";
                mkContractRecord "A" 0.7 None None None "docx" "active" ""] []) [])).1
    = Returned [mismatch "A" 0.65 0.6; mismatch "A" 0.7 0.6].
Proof. vm_compute. reflexivity. Qed.
End split_consistency.

(** ** Updating a share, setting an advance *)

Section share_updates.

Lemma find_contract_first (a : string) (cs : list ContractRecord) (i : nat)
    (c : ContractRecord) :
  find_contract a cs = Some (i, c) ->
  cs !! i = Some c ∧ contract_manager.artist c = a ∧
  ∀ j c', (j < i)%nat -> cs !! j = Some c' -> contract_manager.artist c' ≠ a.
Proof.
  revert i. induction cs as [|c0 cs IH]; intros i; cbn; [done|].
  destruct (String.eqb_spec (contract_manager.artist c0) a) as [E|E].
  - intros [= <- <-]. split_and!; [done..|]. intros j c' Hj. lia.
  - destruct (find_contract a cs) as [[i' c1]|]; [|done]. cbn. intros [= <- <-].
    destruct (IH i' eq_refl) as (Hc & Ha & Hfirst).
    split_and!; [done..|].
    intros [|j] c' Hj; cbn.
    + by intros [= <-].
    + apply Hfirst. lia.
Qed.



End share_updates.

(** ** Director.escalate *)

Import director.

Section escalation.
Variable lower : string -> string.

Lemma prefix_spec (s t : string) :
  String.prefix s t = true <-> ∃ after, t = s +:+ after.
Proof.
  revert t. induction s as [|c s IH]; intros t.
  - split; [by exists t|]. by destruct t.
  - destruct t as [|c' t]; cbn; [split; [done|by intros [? ?]]|].
    destruct (Ascii.ascii_dec c c') as [->|Hne].
    + rewrite IH. split; intros [after H]; exists after.
      * cbn. by rewrite H.
      * by injection H.
    + split; [done|]. intros [after [= ? ?]]. done.
Qed.

Lemma contains_spec (needle hay : string) :
  contains needle hay = true <-> ∃ before after, hay = before +:+ needle +:+ after.
Proof.
  induction hay as [|c hay IH]; cbn [contains]; rewrite orb_true_iff, prefix_spec.
  - split.
    + intros [[after H]|?]; [|done]. by exists "", after.
    + intros ([|? ?] & after & H); [|done]. left. by exists after.
  - rewrite IH. split.
    + intros [[after H]|(before & after & H)].
      * by exists "", after.
      * exists (String c before), after. cbn. by rewrite H.
    + intros ([|c' before] & after & H).
      * left. by exists after.
      * right. injection H as -> H. by exists before, after.
Qed.

Lemma applies_spec (issue from : string) (rule : EscalationRule) :
  applies lower issue from rule = true <-> rule_matches lower issue from rule.
Proof.
  unfold applies, rule_matches.
  by rewrite andb_true_iff, String.eqb_eq, contains_spec.
Qed.

(** C9.  For every issue and source agent, [escalate] returns one action:
    that of the first rule of the ordered rule list which is for the
    calling agent and whose condition occurs in the lower-cased issue, and
    [notify_admin] when no rule is; it returns for every input. *)
Theorem escalate_first_match (utcnow issue from : string) (env : Env Director) :
  ∃ result env',
    escalate lower utcnow issue from env = (Returned result, env') ∧
    ((∃ skipped rule rest,
        escalation_rules (self env) = skipped ++ rule :: rest ∧
        Forall (fun r => ¬ rule_matches lower issue from r) skipped ∧
        rule_matches lower issue from rule ∧
        result !! "action" = Some (action rule)) ∨
     (Forall (fun r => ¬ rule_matches lower issue from r) (escalation_rules (self env)) ∧
      result !! "action" = Some "notify_admin")).
Proof.
  unfold escalate, bind, read. cbn [fst snd].
  induction (escalation_rules (self env)) as [|rule rules IH]; cbn [escalate_loop].
  - eexists _, _. split; [reflexivity|]. right. split; [constructor|reflexivity].
  - destruct (applies lower issue from rule) eqn:E.
    + eexists _, _. split; [reflexivity|]. left. exists [], rule, rules.
      split_and!; [done|constructor|by apply applies_spec|reflexivity].
    + destruct IH as (result & env' & Hrun & Hcase).
      assert (Hno : ¬ rule_matches lower issue from rule).
      { rewrite <- applies_spec. congruence. }
      exists result, env'. split; [done|].
      destruct Hcase as [(skipped & r & rest & -> & Hsk & Hr & Hact)|[Hall Hact]].
      * left. exists (rule :: skipped), r, rest. split_and!; [done|by constructor|done..].
      * right. split; [by constructor|done].
Qed.
End escalation.

(** ** RoyaltyManager: amounts, artists, reports and advances *)

Section payout_amounts.
Import royalty_manager.
#[local] Open Scope Q_scope.

Lemma payouts_forall (P : ArtistPayout -> Prop) (rm : RoyaltyManager) (q : string)
    (groups : list (string * list Row)) :
  (∀ item p, item ∈ groups -> payout_of rm q item = Some p -> P p) ->
  Forall P (omap (payout_of rm q) groups).
Proof.
  intros H. apply Forall_forall. intros p (item & Hin & Hp)%list_elem_of_omap. eauto.
Qed.

(** X1.  For every call of [calculate], no payout of the result is negative:
    the net payout is at least zero, and it is zero exactly when the
    advance balance the ledger held for the artist covers the whole share. *)
Theorem calculate_net_nonnegative (q : string) (flt : option string)
    (data : option (list Row)) (env : Env RoyaltyManager) :
  ∃ results,
    (calculate q flt data env).1 = Returned results ∧
    Forall (fun p =>
              let balance := default Dec.zero (_advances_cache (self env) !! artist p) in
              0 <= Dec.to_Q (net_payout p) ∧
              (Dec.to_Q (net_payout p) == 0 <->
               Dec.to_Q (artist_share p) <= Dec.to_Q balance))
      results.
Proof.
  eexists. split; [apply calculate_returns|].
  apply payouts_forall. intros item p _ Hp.
  destruct (payout_of_netting _ _ _ _ Hp) as (Hd & _ & Hnet & Hle & Hle' & _).
  cbn zeta. set (balance := default Dec.zero _) in *.
  rewrite Hnet. unfold Dec.min in Hd.
  destruct (Dec.ltb (artist_share p) balance) eqn:E.
  - rewrite Hd. apply ltb_to_Q in E. split; [lra|]. split; intros; lra.
  - assert (Hb : Dec.to_Q balance <= Dec.to_Q (artist_share p)).
    { apply Qnot_lt_le. rewrite <- ltb_to_Q, E. discriminate. }
    rewrite Hd. split; [lra|]. split; intros; lra.
Qed.
End payout_amounts.

Section row_totals.
Import royalty_manager.
#[local] Open Scope Q_scope.





End row_totals.

Section per_artist.
Import royalty_manager.

Lemma groups_of_key (a : string) (groups : list (string * list Row)) :
  NoDup groups.*1 ->
  filter (fun g => g.1 = a) groups =
    match group_lookup a groups with
    | Some rows => [(a, rows)]
    | None => []
    end.
Proof.
  induction groups as [|[k rows] groups IH]; intros Hnd; [done|].
  apply NoDup_cons in Hnd as [Hk Hnd]. rewrite filter_cons. cbn [fst group_lookup].
  destruct (String.eqb_spec k a) as [->|Hne].
  - rewrite decide_True by done. f_equal. rewrite IH by done.
    cbn [fst] in Hk. apply group_lookup_None in Hk. by rewrite Hk.
  - rewrite decide_False by done. by apply IH.
Qed.

Lemma payouts_of_key (rm : RoyaltyManager) (q a : string) (groups : list (string * list Row)) :
  filter (fun p => artist p = a) (omap (payout_of rm q) groups) =
  omap (payout_of rm q) (filter (fun g => g.1 = a) groups).
Proof.
  induction groups as [|item groups IH]; [done|].
  rewrite filter_cons. cbn [omap list_omap].
  destruct (payout_of rm q item) as [p|] eqn:E.
  - rewrite filter_cons. pose proof (payout_of_artist _ _ _ _ E) as [Ha _]. rewrite Ha.
    destruct (decide (item.1 = a)); cbn [omap list_omap]; rewrite ?E, IH; done.
  - destruct (decide (item.1 = a)); cbn [omap list_omap]; rewrite ?E, IH; done.
Qed.

(** The payouts of one artist in the list [calculate] returns: none, or the
    one computed from the rows of that artist. *)
Lemma results_of_artist (rm : RoyaltyManager) (q : string) (flt : option string)
    (data : list Row) (a : string) :
  filter (fun p => artist p = a) (omap (payout_of rm q) (group_rows flt data)) =
    match rows_of a (kept flt data) with
    | [] => []
    | rows => option_list (payout_of rm q (a, rows))
    end.
Proof.
  destruct (group_rows_spec flt data) as [Hnd Hl].
  rewrite payouts_of_key, groups_of_key, Hl by done.
  destruct (rows_of a (kept flt data)); [done|]. cbn.
  by destruct (payout_of rm q _).
Qed.

Lemma kept_all (flt : option string) (data : list Row) :
  truthy flt = false -> kept flt data = data.
Proof.
  intros H. unfold kept. apply filter_all. intros row _. unfold skipped. by rewrite H.
Qed.

Lemma kept_key (a : string) (data : list Row) (row : Row) :
  a ≠ "" -> row ∈ kept (Some a) data <-> row ∈ data ∧ row_key row = a.
Proof.
  intros Ha. unfold kept, skipped. rewrite list_elem_of_filter. cbn [truthy].
  apply String.eqb_neq in Ha. rewrite Ha. cbn [negb andb].
  rewrite negb_false_iff, bool_decide_eq_true.
  split; intros [H1 H2]; split; congruence.
Qed.

Lemma rows_of_kept (a : string) (data : list Row) :
  a ≠ "" -> rows_of a (kept (Some a) data) = rows_of a data.
Proof.
  intros Ha. unfold rows_of. induction data as [|row data IH]; [done|].
  rewrite kept_cons. unfold skipped. cbn [truthy].
  pose proof Ha as Ha'. apply String.eqb_neq in Ha'. rewrite Ha'. cbn [negb andb].
  rewrite (filter_cons _ row data).
  destruct (decide (row_key row = a)) as [E|E].
  - rewrite bool_decide_eq_true_2 by congruence. cbn [negb].
    rewrite filter_cons, decide_True by done. by rewrite IH.
  - rewrite bool_decide_eq_false_2 by congruence. cbn [negb]. exact IH.
Qed.

(** X3.  Calling [calculate] for one artist, of a non-empty name, returns the
    payouts the unfiltered call returns for that artist, and that is at most
    one payout; an empty name as filter is no filter. *)
Theorem calculate_artist_filter (q a : string) (data : list Row) (env : Env RoyaltyManager) :
  a ≠ "" ->
  ∃ all,
    (calculate q None (Some data) env).1 = Returned all ∧
    (calculate q (Some a) (Some data) env).1
      = Returned (filter (fun p => artist p = a) all) ∧
    length (filter (fun p => artist p = a) all) <= 1 ∧
    calculate q (Some "") (Some data) env = calculate q None (Some data) env.
Proof.
  intros Ha. eexists. split; [apply calculate_returns|].
  change (default [] (Some data)) with data. split_and!.
  - rewrite calculate_returns. change (default [] (Some data)) with data. f_equal.
    rewrite <- (filter_all (fun p => artist p = a)
                  (omap (payout_of (self env) q) (group_rows (Some a) data))).
    + rewrite !results_of_artist, rows_of_kept, kept_all by done. done.
    + intros p [Hne _]%calculate_result_elem.
      destruct (rows_of (artist p) (kept (Some a) data)) as [|row rows] eqn:E; [done|].
      assert (Hrow : row ∈ rows_of (artist p) (kept (Some a) data)) by (rewrite E; left).
      unfold rows_of in Hrow. apply list_elem_of_filter in Hrow as [Hk Hrow].
      apply kept_key in Hrow as [_ Hrow]; congruence.
  - rewrite results_of_artist. destruct (rows_of a (kept None data)); [cbn; lia|].
    destruct (payout_of _ _ _); cbn; lia.
  - rewrite !calculate_run. change (default [] (Some data)) with data.
    assert (E : group_rows (Some "") data = group_rows None data); [|by rewrite E].
    unfold group_rows. f_equal.
Qed.

(** Two artists with revenue, the call filtered for one of them. *)
Lemma calculate_artist_filter_witness :
  let data := [mkRow (Some "Carol") (Some (mkDecimal 100 0)) None None;
               mkRow (Some "Bob") (Some (mkDecimal 50000 (-2))) None None] in
  let env := mkEnv (mkRoyaltyManager {[ "Bob" := mkDecimal 8 (-1); "Carol" := mkDecimal 5 (-1) ]}
                      ∅) [] in
  ∃ all,
    (calculate "Q4 2025" None (Some data) env).1 = Returned all ∧
    (calculate "Q4 2025" (Some "Bob") (Some data) env).1
      = Returned (filter (fun p => artist p = "Bob") all) ∧
    length (filter (fun p => artist p = "Bob") all) <= 1 ∧
    calculate "Q4 2025" (Some "") (Some data) env = calculate "Q4 2025" None (Some data) env.
Proof. cbn zeta. apply calculate_artist_filter. discriminate. Defined.
End per_artist.

Section accounting.
Import royalty_manager.

Lemma filter_length_split {A : Type} (P : A -> Prop) `{!∀ x, stdpp.base.Decision (P x)} (l : list A) :
  length (filter P l) + length (filter (fun x => ¬ P x) l) = length l.
Proof.
  induction l as [|x l IH]; [done|].
  rewrite !filter_cons. destruct (decide (P x)).
  - rewrite decide_False by tauto. cbn. lia.
  - rewrite decide_True by done. cbn. lia.
Qed.

Lemma results_artists (rm : RoyaltyManager) (q : string) (groups : list (string * list Row)) :
  artist <$> omap (payout_of rm q) groups =
  filter (fun a => is_Some (_splits_cache rm !! a)) groups.*1.
Proof.
  induction groups as [|item groups IH]; [done|].
  cbn [omap list_omap fmap list_fmap]. rewrite filter_cons.
  destruct (payout_of rm q item) as [p|] eqn:E.
  - pose proof (payout_of_artist _ _ _ _ E) as [Ha Hs].
    rewrite decide_True by done. cbn [fmap list_fmap]. rewrite Ha. f_equal. exact IH.
  - rewrite decide_False; [exact IH|].
    intros Hs. apply (payout_of_Some rm q) in Hs as [p Hp]. congruence.
Qed.

Lemma warnings_artists (rm : RoyaltyManager) (groups : list (string * list Row)) :
  mjoin (warning_of rm <$> groups) =
  no_split_warning <$> filter (fun a => ¬ is_Some (_splits_cache rm !! a)) groups.*1.
Proof.
  induction groups as [|item groups IH]; [done|].
  rewrite !fmap_cons, mjoin_cons, filter_cons, IH. unfold warning_of.
  destruct (_splits_cache rm !! item.1) as [pct|] eqn:E.
  - rewrite decide_False; [done|]. intros H. apply H. by eexists.
  - rewrite decide_True; [done|]. by intros [? ?].
Qed.

Lemma rows_of_nil (a : string) (rows : list Row) :
  rows_of a rows = [] <-> a ∉ row_key <$> rows.
Proof.
  unfold rows_of. induction rows as [|row rows IH]; [by split; [intros _ ?%elem_of_nil|]|].
  rewrite filter_cons, fmap_cons, not_elem_of_cons.
  destruct (decide (row_key row = a)) as [E|E].
  - split; [done|]. intros [H _]. congruence.
  - rewrite IH. split; [intros ?; split; [congruence|done]|by intros [_ ?]].
Qed.

Lemma group_keys (flt : option string) (data : list Row) (a : string) :
  a ∈ (group_rows flt data).*1 <-> a ∈ row_key <$> kept flt data.
Proof.
  destruct (group_rows_spec flt data) as [_ Hl].
  pose proof (group_lookup_None a (group_rows flt data)) as Hn. rewrite Hl in Hn.
  pose proof (rows_of_nil a (kept flt data)) as Hr.
  destruct (rows_of a (kept flt data)) as [|row rows].
  - split; intros Hin.
    + exfalso. by apply (proj1 Hn).
    + exfalso. by apply (proj1 Hr).
  - split; intros Hin.
    + destruct (decide (a ∈ row_key <$> kept flt data)) as [|Hno]; [done|].
      by apply Hr in Hno.
    + destruct (decide (a ∈ (group_rows flt data).*1)) as [|Hno]; [done|].
      by apply Hn in Hno.
Qed.

Lemma kept_scope (flt : option string) (data : list Row) :
  row_key <$> kept flt data = credited <$> filter (in_scope flt) data.
Proof.
  unfold kept. rewrite (list_filter_iff _ (in_scope flt)) by apply skipped_scope.
  apply list_fmap_ext. intros _ row _. apply credited_key.
Qed.

(** X4.  [calculate] accounts for every artist of the batch once.  The
    artists are those the rows in the scope of the call are credited to;
    each of them with a share entry has one payout in the result, each of
    them without one has one warning in the log, and no one else has
    either, so payouts and warnings together are as many as the artists.
    The log ends with the line that counts the payouts, and the manager is
    left as it was. *)
Theorem calculate_accounts_for_artists (q : string) (flt : option string)
    (data : list Row) (env : Env RoyaltyManager) :
  let artists : gset string := list_to_set (credited <$> filter (in_scope flt) data) in
  ∃ results without_split,
    calculate q flt (Some data) env =
      (Returned results,
       mkEnv (self env)
         ((logged env ++ (no_split_warning <$> without_split)) ++
          [mkLog INFO "Calculated royalties for Q=%s: %d artists"
             [AStr q; AInt (Z.of_nat (length results))]])) ∧
    NoDup (artist <$> results) ∧
    (∀ a, a ∈ artist <$> results <->
          a ∈ artists ∧ is_Some (_splits_cache (self env) !! a)) ∧
    NoDup without_split ∧
    (∀ a, a ∈ without_split <-> a ∈ artists ∧ _splits_cache (self env) !! a = None) ∧
    length results + length without_split = size artists.
Proof.
  intros artists. destruct (group_rows_spec flt data) as [Hnd _].
  eexists _, _. rewrite calculate_run. change (default [] (Some data)) with data.
  rewrite warnings_artists. split; [reflexivity|]. split_and!.
  - rewrite results_artists. by apply NoDup_filter.
  - intros a. rewrite results_artists, list_elem_of_filter, group_keys, kept_scope.
    unfold artists. rewrite elem_of_list_to_set. tauto.
  - by apply NoDup_filter.
  - intros a. rewrite list_elem_of_filter, group_keys, kept_scope. unfold artists.
    rewrite elem_of_list_to_set, <- eq_None_not_Some. tauto.
  - rewrite <- (length_fmap artist), results_artists, filter_length_split.
    unfold artists. rewrite <- (size_list_to_set (C := gset string) _ Hnd). f_equal.
    apply set_eq. intros a. by rewrite !elem_of_list_to_set, group_keys, kept_scope.
Qed.
End accounting.

Section own_entries.
Import royalty_manager.

Lemma payout_of_agree (rm rm' : RoyaltyManager) (q : string) (item : string * list Row) :
  _splits_cache rm !! item.1 = _splits_cache rm' !! item.1 ->
  _advances_cache rm !! item.1 = _advances_cache rm' !! item.1 ->
  payout_of rm q item = payout_of rm' q item.
Proof. intros Hs Ha. unfold payout_of. by rewrite Hs, Ha. Qed.

Lemma results_agree (q : string) (flt : option string) (data : list Row)
    (rm rm' : RoyaltyManager) (a : string) :
  _splits_cache rm !! a = _splits_cache rm' !! a ->
  _advances_cache rm !! a = _advances_cache rm' !! a ->
  filter (fun p => artist p = a) (omap (payout_of rm q) (group_rows flt data)) =
  filter (fun p => artist p = a) (omap (payout_of rm' q) (group_rows flt data)).
Proof.
  intros Hs Ha. rewrite !results_of_artist.
  destruct (rows_of a (kept flt data)); [done|]. by rewrite (payout_of_agree rm rm').
Qed.

(** X5.  [set_split] and [set_advance] for one artist leave what [calculate]
    pays any other artist unchanged. *)
Theorem setters_leave_other_artists (q : string) (flt : option string)
    (data : list Row) (env : Env RoyaltyManager) (a b : string) (value : Decimal) :
  a ≠ b ->
  ∃ results after_split after_advance,
    (calculate q flt (Some data) env).1 = Returned results ∧
    (calculate q flt (Some data) (set_split b value env).2).1 = Returned after_split ∧
    (calculate q flt (Some data) (set_advance b value env).2).1 = Returned after_advance ∧
    filter (fun p => artist p = a) after_split = filter (fun p => artist p = a) results ∧
    filter (fun p => artist p = a) after_advance = filter (fun p => artist p = a) results.
Proof.
  intros Hab. eexists _, _, _. rewrite !calculate_returns.
  split; [done|]. split; [done|]. split; [done|].
  change (default [] (Some data)) with data.
  split; apply results_agree; cbn; by rewrite ?lookup_insert_ne.
Qed.

(** Setting the share or the advance of Carol leaves the payout of Bob. *)
Lemma setters_leave_other_artists_witness :
  let data := [mkRow (Some "Carol") (Some (mkDecimal 100 0)) None None;
               mkRow (Some "Bob") (Some (mkDecimal 50000 (-2))) None None] in
  let env := mkEnv (mkRoyaltyManager {[ "Bob" := mkDecimal 8 (-1); "Carol" := mkDecimal 5 (-1) ]}
                      ∅) [] in
  ∃ results after_split after_advance,
    (calculate "Q4 2025" None (Some data) env).1 = Returned results ∧
    (calculate "Q4 2025" None (Some data) (set_split "Carol" (mkDecimal 9 (-1)) env).2).1
      = Returned after_split ∧
    (calculate "Q4 2025" None (Some data) (set_advance "Carol" (mkDecimal 9 (-1)) env).2).1
      = Returned after_advance ∧
    filter (fun p => artist p = "Bob") after_split
      = filter (fun p => artist p = "Bob") results ∧
    filter (fun p => artist p = "Bob") after_advance
      = filter (fun p => artist p = "Bob") results.
Proof. cbn zeta. apply setters_leave_other_artists. discriminate. Defined.


End own_entries.

Section reconcile_more.
Import royalty_manager.
#[local] Open Scope Q_scope.

Lemma reconcile_total (q : string) (calculated : option (list ArtistPayout))
    (actual : option (gmap string Decimal)) (env : Env RoyaltyManager) :
  ∃ ds,
    reconcile q calculated actual env =
      (Returned ds,
       mkEnv (self env)
         (logged env ++
            match ds with
            | [] => []
            | _ => [reconciliation_warning (length ds) q]
            end)) ∧
    (ds = [] ∨
     ∃ calc act, calculated = Some calc ∧ actual = Some act ∧
                 ds = mjoin (expected_discrepancy q act <$> calc)).
Proof.
  destruct calculated as [[|p ps]|], actual as [act|];
    try (exists []; split; [destruct env; cbn; by rewrite app_nil_r|by left]).
  destruct (decide (act = ∅)) as [->|Hne].
  - exists []. split; [destruct env; cbn; by rewrite app_nil_r|by left].
  - eexists. rewrite reconcile_run by done. split; [done|]. right. by eexists _, _.
Qed.

Lemma expected_length (q : string) (act : gmap string Decimal) (calc : list ArtistPayout) :
  (length (mjoin (expected_discrepancy q act <$> calc)) <= length calc)%nat.
Proof.
  induction calc as [|p calc IH]; [done|].
  rewrite fmap_cons, mjoin_cons, length_app. cbn [length].
  assert (length (expected_discrepancy q act p) <= 1)%nat; [|lia].
  unfold expected_discrepancy. destruct (act !! artist p); [|done].
  destruct (Qeq_dec _ _); cbn; lia.
Qed.

(** X7.  [reconcile] returns for every input, leaves the manager as it was,
    logs one warning with the number of discrepancies when there is one and
    nothing when there is none, and never reports more discrepancies than
    payouts were computed. *)
Theorem reconcile_reports_and_leaves (q : string) (calculated : option (list ArtistPayout))
    (actual : option (gmap string Decimal)) (env : Env RoyaltyManager) :
  ∃ ds,
    reconcile q calculated actual env =
      (Returned ds,
       mkEnv (self env)
         (logged env ++
            match ds with
            | [] => []
            | _ => [reconciliation_warning (length ds) q]
            end)) ∧
    (length ds <= length (default [] calculated))%nat.
Proof.
  destruct (reconcile_total q calculated actual env) as (ds & Hrun & Hds).
  exists ds. split; [done|].
  destruct Hds as [->|(calc & act & -> & -> & ->)]; [cbn; lia|apply expected_length].
Qed.

Lemma expected_all_match (q : string) (actual : gmap string Decimal)
    (calculated : list ArtistPayout) :
  (∀ p, p ∈ calculated ->
        ∃ amount, actual !! artist p = Some amount ∧
                  Dec.to_Q amount == Dec.to_Q (net_payout p)) ->
  mjoin (expected_discrepancy q actual <$> calculated) = [].
Proof.
  intros Hall. induction calculated as [|p ps IH]; [done|].
  rewrite fmap_cons, mjoin_cons, IH by (intros p' Hp'; apply Hall; by right).
  rewrite app_nil_r. unfold expected_discrepancy.
  destruct (Hall p ltac:(left)) as (amount & -> & Heq).
  by destruct (Qeq_dec _ _).
Qed.

Lemma reconcile_nothing (q : string) (calculated : list ArtistPayout)
    (actual : gmap string Decimal) (env : Env RoyaltyManager) :
  mjoin (expected_discrepancy q actual <$> calculated) = [] ->
  reconcile q (Some calculated) (Some actual) env = (Returned [], env).
Proof.
  intros Hnil. destruct (reconcile_total q (Some calculated) (Some actual) env)
    as (ds & Hrun & Hds).
  assert (Hds' : ds = []).
  { destruct Hds as [->|(calc & act & [= <-] & [= <-] & ->)]; done. }
  rewrite Hrun, Hds'. destruct env. cbn. by rewrite app_nil_r.
Qed.

(** X8.  When every computed payout has an actual amount of the same value,
    [reconcile] reports nothing and logs nothing; amounts that differ in
    their digits only, as 300 and 300.00, are the same value. *)
Theorem reconcile_matching_amounts (q : string) (calculated : list ArtistPayout)
    (actual : gmap string Decimal) (env : Env RoyaltyManager) :
  (∀ p, p ∈ calculated ->
        ∃ amount, actual !! artist p = Some amount ∧
                  Dec.to_Q amount == Dec.to_Q (net_payout p)) ->
  reconcile q (Some calculated) (Some actual) env = (Returned [], env).
Proof. intros Hall. by apply reconcile_nothing, expected_all_match. Qed.

(** An actual amount of 300 against a computed 300.00. *)
Lemma reconcile_matching_amounts_witness :
  let calculated :=
    [mkArtistPayout "A" "Q4 2025" (mkDecimal 50000 (-2)) (mkDecimal 8 (-1))
       (mkDecimal 40000 (-2)) (mkDecimal 100 0) (mkDecimal 30000 (-2)) 1 5] in
  let env := mkEnv (mkRoyaltyManager ∅ ∅) [] in
  reconcile "Q4 2025" (Some calculated) (Some {[ "A" := mkDecimal 300 0 ]}) env
    = (Returned [], env).
Proof.
  cbn zeta. apply reconcile_matching_amounts.
  intros p ->%list_elem_of_singleton. exists (mkDecimal 300 0).
  split; vm_compute; reflexivity.
Defined.
End reconcile_more.

Section reconcile_round_trip.
Import royalty_manager.
#[local] Open Scope Q_scope.

Lemma paid_in_full_lookup (payouts : list ArtistPayout) (p : ArtistPayout) :
  NoDup (artist <$> payouts) -> p ∈ payouts ->
  paid_in_full payouts !! artist p = Some (net_payout p).
Proof.
  intros Hnd Hp. unfold paid_in_full. apply elem_of_list_to_map_1.
  - by rewrite <- list_fmap_compose.
  - apply list_elem_of_fmap. by exists p.
Qed.

(** X9.  Round trip: the payouts [calculate] returns, reconciled against
    their own net amounts, show no discrepancy. *)
Theorem calculate_then_reconcile (q : string) (flt : option string)
    (data : option (list Row)) (env : Env RoyaltyManager) :
  ∃ results env',
    calculate q flt data env = (Returned results, env') ∧
    reconcile q (Some results) (Some (paid_in_full results)) env' = (Returned [], env').
Proof.
  eexists _, _. split; [apply calculate_run|]. cbn zeta.
  apply reconcile_nothing, expected_all_match. intros p Hp. exists (net_payout p).
  split; [|reflexivity]. apply paid_in_full_lookup; [|done].
  eapply sublist_NoDup; [apply (proj1 (group_rows_spec flt (default [] data)))|].
  apply payouts_artists_sublist.
Qed.



End reconcile_round_trip.

Section advances.
Import royalty_manager.
#[local] Open Scope Q_scope.

Lemma check_advances_run (flt : option string) (env : Env RoyaltyManager) :
  check_advances flt env =
    (Returned
       (mjoin ((fun item : string * Decimal =>
                  if truthy flt && negb (bool_decide (Some item.1 = flt)) then []
                  else if Dec.ltb Dec.zero item.2
                       then [mkAdvance item.1 item.2 "active"] else [])
               <$> map_to_list (_advances_cache (self env)))),
     env).
Proof.
  unfold check_advances, bind, read, ret. cbn [fst snd]. f_equal. f_equal.
  rewrite (fold_left_append
             (fun item : string * Decimal =>
                if truthy flt && negb (bool_decide (Some item.1 = flt)) then []
                else if Dec.ltb Dec.zero item.2
                     then [mkAdvance item.1 item.2 "active"] else [])); [done|].
  intros acc [name balance]. cbn [fst snd].
  destruct (truthy flt && negb (bool_decide (Some name = flt))); [by rewrite app_nil_r|].
  destruct (Dec.ltb Dec.zero balance); [done|by rewrite app_nil_r].
Qed.

Lemma positive_to_Q (d : Decimal) : Dec.ltb Dec.zero d = true <-> 0 < Dec.to_Q d.
Proof. rewrite ltb_to_Q. change (Dec.to_Q Dec.zero) with (0 * 1). split; intros; lra. Qed.

Lemma check_advances_elem (flt : option string) (rm : RoyaltyManager) (adv : Advance) :
  adv ∈ mjoin ((fun item : string * Decimal =>
                  if truthy flt && negb (bool_decide (Some item.1 = flt)) then []
                  else if Dec.ltb Dec.zero item.2
                       then [mkAdvance item.1 item.2 "active"] else [])
               <$> map_to_list (_advances_cache rm)) <->
  _advances_cache rm !! advance_artist adv = Some (remaining_balance adv) ∧
  0 < Dec.to_Q (remaining_balance adv) ∧
  advance_status adv = "active" ∧
  (truthy flt = true -> flt = Some (advance_artist adv)).
Proof.
  rewrite list_elem_of_join. split.
  - intros (l & Hin & ([name balance] & -> & Hitem)%list_elem_of_fmap).
    apply elem_of_map_to_list in Hitem. cbn [fst snd] in Hin.
    destruct (truthy flt && negb (bool_decide (Some name = flt))) eqn:Ef;
      [by apply elem_of_nil in Hin|].
    destruct (Dec.ltb Dec.zero balance) eqn:Eb; [|by apply elem_of_nil in Hin].
    apply list_elem_of_singleton in Hin as ->. cbn. split_and!; [done| |done|].
    + by apply positive_to_Q.
    + intros Ht. rewrite Ht in Ef. cbn in Ef.
      apply negb_false_iff, bool_decide_eq_true in Ef. done.
  - intros (Hl & Hpos & Hst & Hflt). destruct adv as [name balance st]. cbn in *. subst st.
    eexists. split; [|apply list_elem_of_fmap; exists (name, balance);
                       split; [reflexivity|by apply elem_of_map_to_list]].
    cbn [fst snd]. apply positive_to_Q in Hpos. rewrite Hpos.
    destruct (truthy flt) eqn:Et; cbn [andb].
    + rewrite (Hflt eq_refl), bool_decide_eq_true_2 by done. cbn. left.
    + left.
Qed.

(** X11.  [check_advances] lists the artists whose advance balance is above
    zero, each once with that balance and the status [active], restricted
    to the artist asked for when one is given; a balance of zero or below
    is not listed, and the manager is left as it was. *)
Theorem check_advances_lists_positive (flt : option string) (env : Env RoyaltyManager) :
  ∃ result,
    check_advances flt env = (Returned result, env) ∧
    (∀ adv, adv ∈ result <->
            _advances_cache (self env) !! advance_artist adv = Some (remaining_balance adv) ∧
            0 < Dec.to_Q (remaining_balance adv) ∧
            advance_status adv = "active" ∧
            (truthy flt = true -> flt = Some (advance_artist adv))) ∧
    NoDup (advance_artist <$> result).
Proof.
  eexists. split; [apply check_advances_run|]. split.
  - intros adv. apply check_advances_elem.
  - pose proof (NoDup_fst_map_to_list (_advances_cache (self env))) as Hnd.
    induction (map_to_list (_advances_cache (self env))) as [|[name balance] items IH];
      [constructor|].
    apply NoDup_cons in Hnd as [Hname Hnd]. rewrite fmap_cons, mjoin_cons, fmap_app.
    apply NoDup_app. split_and!; [|  |by apply IH].
    + cbn [fst snd]. destruct (_ && _); [constructor|].
      destruct (Dec.ltb _ _); [apply NoDup_singleton|constructor].
    + intros a Ha Hin. apply Hname.
      assert (a = name) as ->.
      { cbn [fst snd] in Ha. destruct (_ && _); [by apply elem_of_nil in Ha|].
        destruct (Dec.ltb _ _); [|by apply elem_of_nil in Ha].
        by apply list_elem_of_singleton in Ha. }
      clear -Hin. apply list_elem_of_fmap in Hin as (adv & -> & Hin).
      apply list_elem_of_join in Hin as (l & Hin & ([n b] & -> & Hitem)%list_elem_of_fmap).
      cbn [fst snd] in Hin. destruct (_ && _); [by apply elem_of_nil in Hin|].
      destruct (Dec.ltb _ _); [|by apply elem_of_nil in Hin].
      apply list_elem_of_singleton in Hin as ->. cbn.
      apply list_elem_of_fmap. by exists (n, b).
Qed.

(** X12.  [get_artist_balance] agrees with [check_advances]: it says
    [has_advance] exactly for the artists [check_advances] lists, with the
    same balance, and [clear] for all others, an artist the ledger does not
    know included. *)
Theorem balance_agrees_with_advances (a : string) (env : Env RoyaltyManager) :
  ∃ balance listed,
    get_artist_balance a env = (Returned balance, env) ∧
    check_advances None env = (Returned listed, env) ∧
    balance_artist balance = a ∧
    advance_remaining balance = default Dec.zero (_advances_cache (self env) !! a) ∧
    (balance_status balance = "has_advance" ∨ balance_status balance = "clear") ∧
    (balance_status balance = "has_advance" <->
     mkAdvance a (advance_remaining balance) "active" ∈ listed) ∧
    (balance_status balance = "clear" <-> a ∉ advance_artist <$> listed).
Proof.
  pose proof (check_advances_elem None (self env)) as Hin.
  eexists _, _. split; [reflexivity|]. split; [apply check_advances_run|].
  set (listed := mjoin _) in *. cbn.
  split; [done|]. split; [done|].
  set (amount := default Dec.zero (_advances_cache (self env) !! a)).
  assert (Hlisted : a ∈ advance_artist <$> listed <-> Dec.ltb Dec.zero amount = true).
  { rewrite list_elem_of_fmap. split.
    - intros (adv & -> & (Hl & Hpos & _)%Hin). unfold amount. rewrite Hl. cbn.
      by apply positive_to_Q.
    - intros Hpos. exists (mkAdvance a amount "active"). split; [done|]. apply Hin. cbn.
      split_and!; [|by apply positive_to_Q|done..].
      unfold amount in *. destruct (_advances_cache (self env) !! a); [done|].
      cbn in Hpos. discriminate Hpos. }
  destruct (Dec.ltb Dec.zero amount) eqn:E; split_and!.
  - by left.
  - split; [intros _|done]. apply Hin. cbn. split_and!; [|by apply positive_to_Q|done..].
    unfold amount in *. destruct (_advances_cache (self env) !! a); [done|].
    cbn in E. discriminate E.
  - split; [done|]. intros Hno. exfalso. apply Hno. by apply Hlisted.
  - by right.
  - split; [done|]. intros (_ & Hpos%positive_to_Q & _)%Hin. cbn in Hpos. congruence.
  - split; [intros _|done]. rewrite Hlisted. done.
Qed.
End advances.

Section reports.
Import royalty_manager.

Lemma first_payout_head (a : string) (payouts : list ArtistPayout) :
  first_payout a payouts = head (filter (fun p => artist p = a) payouts).
Proof.
  induction payouts as [|p ps IH]; [done|]. cbn [first_payout]. rewrite filter_cons.
  destruct (String.eqb_spec (artist p) a) as [E|E].
  - by rewrite decide_True.
  - by rewrite decide_False.
Qed.

Lemma replace_spaces_get (s : string) (i : nat) :
  String.get i (replace_spaces s) =
  (fun c => if Ascii.eqb c " " then "_"%char else c) <$> String.get i s.
Proof.
  revert i. induction s as [|c s IH]; intros i; [done|].
  destruct i as [|i]; cbn; [done|]. apply IH.
Qed.

Lemma generate_report_run (utcnow a q fmt : string) (payouts : option (list ArtistPayout))
    (env : Env RoyaltyManager) :
  let name := "royalty_" +:+ a +:+ "_" +:+ replace_spaces q +:+ "." +:+ fmt in
  generate_report utcnow a q fmt payouts env =
    (Returned
       (mkReport a q fmt utcnow
          (report_of (head (filter (fun p => artist p = a) (default [] payouts)))) name),
     mkEnv (self env) (logged env ++ [mkLog INFO "Report generated: %s" [AStr name]])).
Proof.
  cbn zeta. unfold generate_report, bind, log, ret. cbn [fst snd filename].
  f_equal. f_equal. f_equal.
  destruct payouts as [[|p ps]|]; [done| |done].
  rewrite first_payout_head. change (default [] (Some (p :: ps))) with (p :: ps).
  by destruct (head (filter _ (p :: ps))).
Qed.

(** X13.  The report of [generate_report] shows the amounts of the first
    payout of the artist in the list given, and zeros when there is none or
    no list; the file name is built from the artist, the quarter with every
    space replaced by an underscore and nothing else changed, and the
    format; the manager is left as it was. *)
Theorem generate_report_contents (utcnow a q fmt : string)
    (payouts : option (list ArtistPayout)) (env : Env RoyaltyManager) :
  ∃ report,
    (generate_report utcnow a q fmt payouts env).1 = Returned report ∧
    self (generate_report utcnow a q fmt payouts env).2 = self env ∧
    payout report =
      report_of (head (filter (fun p => artist p = a) (default [] payouts))) ∧
    filename report = "royalty_" +:+ a +:+ "_" +:+ replace_spaces q +:+ "." +:+ fmt ∧
    String.length (replace_spaces q) = String.length q ∧
    ∀ i, String.get i (replace_spaces q) ≠ Some " "%char ∧
         (String.get i q ≠ Some " "%char ->
          String.get i (replace_spaces q) = String.get i q).
Proof.
  eexists. rewrite generate_report_run. cbn [fst snd self payout filename].
  split; [done|]. split; [done|]. split; [done|]. split; [done|]. split.
  - induction q as [|c q IH]; [done|]. cbn. by rewrite IH.
  - intros i. rewrite replace_spaces_get. destruct (String.get i q) as [c|]; [|done].
    cbn. destruct (Ascii.eqb_spec c " ") as [->|Hne]; split; try done.
    + intros [= ->]. done.
Qed.

(** X14.  A report generated from the result of [calculate] shows, for an
    artist with kept rows and a split, exactly the amounts [calculate]
    computed from those rows, and zeros for any other artist. *)
Theorem calculate_then_report (utcnow a q fmt : string) (flt : option string)
    (data : list Row) (env : Env RoyaltyManager) :
  ∃ results env' report,
    calculate q flt (Some data) env = (Returned results, env') ∧
    (generate_report utcnow a q fmt (Some results) env').1 = Returned report ∧
    payout report =
      report_of
        match rows_of a (kept flt data) with
        | [] => None
        | rows => payout_of (self env) q (a, rows)
        end.
Proof.
  eexists _, _, _. split; [apply calculate_run|]. cbn zeta.
  rewrite generate_report_run. cbn [fst snd payout from_option id].
  split; [done|]. rewrite results_of_artist. destruct (rows_of a (kept flt data)); [done|].
  by destruct (payout_of _ _ _).
Qed.
End reports.

(** ** ContractManager: the registry and its summary *)

Section registry.
Import contract_manager.


Lemma first_contract_app (a : string) (cs : list ContractRecord) (c : ContractRecord) :
  first_contract a (cs ++ [c]) =
    match first_contract a cs with
    | Some c0 => Some c0
    | None => if String.eqb (contract_manager.artist c) a then Some c else None
    end.
Proof.
  induction cs as [|c0 cs IH]; cbn; [done|].
  by destruct (String.eqb (contract_manager.artist c0) a).
Qed.

(** X15.  [add_contract] appends the record and leaves the audit log alone.  A
    record added for an artist who already has one is shadowed:
    [get_contract_status] keeps returning the earlier record, and returns
    the new one only when the artist had none. *)
Theorem add_contract_then_status (c : ContractRecord) (a : string)
    (env : Env ContractManager) :
  let env' := (add_contract c env).2 in
  contracts (self env') = contracts (self env) ++ [c] ∧
  _audit_log (self env') = _audit_log (self env) ∧
  (get_contract_status a env').1 =
    Returned
      match (get_contract_status a env).1 with
      | Returned (Some earlier) => Some earlier
      | _ => if decide (contract_manager.artist c = a) then Some c else None
      end.
Proof.
  cbn. split; [done|]. split; [done|]. f_equal. rewrite first_contract_app.
  destruct (first_contract a (contracts (self env))); [done|].
  destruct (String.eqb_spec (contract_manager.artist c) a).
  - by rewrite decide_True.
  - by rewrite decide_False.
Qed.


Lemma update_split_run (utcnow a reason : string) (p : float) (env : Env ContractManager) :
  update_split utcnow a p reason env =
    if negb (in_unit_interval p)
    then (Raised (ContractError
                    [AStr "Invalid split percentage: "; AFloat p;
                     AStr ". Must be 0.0-1.0."]), env)
    else
      match find_contract a (contracts (self env)) with
      | None =>
          (Raised (ContractError [AStr "Contract not found for artist: "; AStr a]), env)
      | Some (i, c) =>
          let entry := mkAuditEntry utcnow a (contract_manager.split_pct c) p reason
                         (name (self env)) in
          (Returned entry,
           mkEnv (mkContractManager (name (self env))
                    (<[i := with_split c p]> (contracts (self env)))
                    (_audit_log (self env) ++ [entry]))
             (logged env ++
                [mkLog INFO "Split updated for %s: %.0f%% -> %.0f%% (%s)"
                   [AStr a; AFloat (PrimFloat.mul (contract_manager.split_pct c) 100);
                    AFloat (PrimFloat.mul p 100); AStr reason]]))
      end.
Proof.
  unfold update_split. destruct (negb (in_unit_interval p)); [done|].
  unfold bind, read. cbn [fst snd].
  by destruct (find_contract a (contracts (self env))) as [[i c]|].
Qed.

End registry.

Section verification.
Import contract_manager.

Lemma filter_insert_unique (a : string) (cs : list ContractRecord) (i : nat)
    (c c' only : ContractRecord) :
  find_contract a cs = Some (i, c) ->
  contract_manager.artist c' = a ->
  filter (fun c => contract_manager.artist c = a) cs = [only] ->
  filter (fun c => contract_manager.artist c = a) (<[i := c']> cs) = [c'].
Proof.
  revert i. induction cs as [|c0 cs IH]; intros i; cbn [find_contract]; [done|].
  rewrite filter_cons. destruct (String.eqb_spec (contract_manager.artist c0) a) as [E|E].
  - intros [= <- <-] Ha. rewrite decide_True by done. intros [= _ Hrest].
    change (<[0%nat := c']> (c0 :: cs)) with (c' :: cs).
    rewrite filter_cons, decide_True by done. by rewrite Hrest.
  - destruct (find_contract a cs) as [[i' c1]|] eqn:Ef; [|done]. cbn [fmap option_fmap option_map prod_map fst snd id].
    intros [= <- <-] Ha.
    rewrite decide_False by done. intros Hf.
    change (<[S i' := c']> (c0 :: cs)) with (c0 :: <[i' := c']> cs).
    rewrite filter_cons, decide_False by done. by apply IH.
Qed.

(** X17.  After a successful [update_split] of an artist with one record to
    the share the engine holds, [verify_splits] reports nothing about that
    artist. *)
Theorem update_split_then_verify (utcnow a reason : string) (p : float)
    (env : Env ContractManager) (db : gmap string float) (c : ContractRecord)
    (entry : AuditEntry) :
  (update_split utcnow a p reason env).1 = Returned entry ->
  filter (fun c => contract_manager.artist c = a) (contracts (self env)) = [c] ->
  db !! a = Some p ->
  ∃ ms,
    (verify_splits (Some db) (update_split utcnow a p reason env).2).1 = Returned ms ∧
    ∀ m, m ∈ ms -> mismatch_artist m ≠ a.
Proof.
  rewrite update_split_run. destruct (negb (in_unit_interval p)); [done|].
  destruct (find_contract a (contracts (self env))) as [[i c0]|] eqn:E; [|done].
  intros _ Hc Hdb. eexists. rewrite verify_splits_run. cbn [fst snd self contracts].
  split; [done|]. intros m Hm Ha.
  assert (Hin : m ∈ filter (fun m => mismatch_artist m = a)
                       (mjoin (expected_mismatch (default ∅ (Some db)) <$>
                                 <[i := with_split c0 p]> (contracts (self env)))))
    by (by apply list_elem_of_filter).
  rewrite mismatches_of_artist in Hin.
  destruct (find_contract_first _ _ _ _ E) as (_ & Hart & _).
  rewrite (filter_insert_unique a _ i c0 (with_split c0 p) c E Hart Hc) in Hin.
  rewrite fmap_cons, mjoin_cons, app_nil_r in Hin. unfold expected_mismatch in Hin.
  change (default ∅ (Some db)) with db in Hin.
  change (contract_manager.artist (with_split c0 p)) with (contract_manager.artist c0) in Hin.
  change (contract_manager.split_pct (with_split c0 p)) with p in Hin.
  rewrite Hart, Hdb, differs_same in Hin. by apply elem_of_nil in Hin.
Qed.

(** A share of 0.65 brought to the 0.7 the engine holds. *)
Lemma update_split_then_verify_witness :
  let env := mkEnv (mkContractManager "Max"
                      [mkContractRecord "A" 0.65 None None None "pdf" "active" "";
                       mkContractRecord "B" 0.5 None None None "pdf" "active" ""] []) [] in
  ∃ ms,
    (verify_splits (Some {[ "A" := 0.7%float ]})
       (update_split "2026-01-01T00:00:00" "A" 0.7 "renegotiated" env).2).1 = Returned ms ∧
    ∀ m, m ∈ ms -> mismatch_artist m ≠ "A".
Proof.
  cbn zeta.
  apply (update_split_then_verify "2026-01-01T00:00:00" "A" "renegotiated" 0.7 _ _
           (mkContractRecord "A" 0.65 None None None "pdf" "active" "")
           (mkAuditEntry "2026-01-01T00:00:00" "A" 0.65 0.7 "renegotiated" "Max")).
  - vm_compute. reflexivity.
  - vm_compute. reflexivity.
  - vm_compute. reflexivity.
Defined.

Lemma expected_mismatch_length (db : gmap string float) (cs : list ContractRecord) :
  length (mjoin (expected_mismatch db <$> cs)) <= length cs.
Proof.
  induction cs as [|c cs IH]; [done|].
  rewrite fmap_cons, mjoin_cons, length_app. cbn [length].
  assert (length (expected_mismatch db c) <= 1); [|lia].
  unfold expected_mismatch. destruct (db !! contract_manager.artist c); [|done].
  destruct (differs _ _); cbn; lia.
Qed.

(** X18.  [verify_splits] returns for every input, leaves the manager as it
    was, logs one warning with the number of mismatches when there is one
    and nothing when there is none, and never reports more mismatches than
    there are contract records. *)
Theorem verify_splits_reports_and_leaves (db : option (gmap string float))
    (env : Env ContractManager) :
  ∃ ms,
    verify_splits db env =
      (Returned ms,
       mkEnv (self env)
         (logged env ++
            match ms with
            | [] => []
            | _ => [verification_warning (length ms)]
            end)) ∧
    length ms <= length (contracts (self env)).
Proof.
  eexists. rewrite verify_splits_run. split; [done|]. apply expected_mismatch_length.
Qed.

(** X19.  Without an engine-side map, or with an empty one, [verify_splits]
    reports every contract record as missing in the engine, in the order of
    the registry. *)
Theorem verify_splits_without_engine (db : option (gmap string float))
    (env : Env ContractManager) :
  db = None ∨ db = Some ∅ ->
  (verify_splits db env).1 =
    Returned ((fun c => missing_in_db (contract_manager.artist c)
                          (contract_manager.split_pct c)) <$> contracts (self env)).
Proof.
  intros Hdb. rewrite verify_splits_run. cbn [fst]. f_equal.
  assert (Hempty : default ∅ db = ∅) by (by destruct Hdb as [-> | ->]).
  rewrite Hempty. induction (contracts (self env)) as [|c cs IH]; [done|].
  rewrite !fmap_cons, mjoin_cons, IH. unfold expected_mismatch.
  by rewrite lookup_empty.
Qed.

(** Two records verified without an engine-side map. *)
Lemma verify_splits_without_engine_witness :
  (verify_splits None
     (mkEnv (mkContractManager "Max"
               [mkContractRecord "A" 0.65 None None None "pdf" "active" "";
                mkContractRecord "B" 0.5 None None None "pdf" "active" ""] []) [])).1 =
    Returned [missing_in_db "A" 0.65; missing_in_db "B" 0.5].
Proof. apply (verify_splits_without_engine None). left. reflexivity. Defined.
End verification.

Section summary.
Import contract_manager.
Variable average : list float -> float.

Lemma count_statuses (cs : list ContractRecord) :
  let n s := length (List.filter (fun c => String.eqb (contract_manager.status c) s) cs) in
  n "active" + n "expired" + n "placeholder" <= length cs ∧
  (n "active" + n "expired" + n "placeholder" = length cs <-> Forall counted_status cs).
Proof.
  cbn zeta. induction cs as [|c cs [IHle IHeq]]; [by split; [|split; [constructor|]]|].
  cbn [List.filter length]. rewrite Forall_cons. unfold counted_status at 1.
  destruct (String.eqb_spec (contract_manager.status c) "active") as [->|H1];
    [cbn; split; [lia|]; rewrite <- IHeq; split; [intros; split; [by left|lia]|intros [_ ?]; lia]|].
  destruct (String.eqb_spec (contract_manager.status c) "expired") as [->|H2];
    [cbn; split; [lia|]; rewrite <- IHeq;
     split; [intros; split; [by right; left|lia]|intros [_ ?]; lia]|].
  destruct (String.eqb_spec (contract_manager.status c) "placeholder") as [->|H3];
    [cbn; split; [lia|]; rewrite <- IHeq;
     split; [intros; split; [by right; right|lia]|intros [_ ?]; lia]|].
  cbn. split; [lia|]. split; [lia|]. intros [[?|[?|?]] _]; done.
Qed.

(** X20.  The summary counts all records and all audit entries; the active,
    expired and placeholder counts add up to at most the total, and to the
    total exactly when no record has another status; the records with a
    file are at most the total; and the average share is the integer 0
    exactly when no record is active.  The manager is left as it was. *)
Theorem generate_summary_counts (env : Env ContractManager) :
  ∃ s,
    generate_summary average env = (Returned s, env) ∧
    total s = length (contracts (self env)) ∧
    audit_log_entries s = length (_audit_log (self env)) ∧
    active s + expired s + placeholders s <= total s ∧
    (active s + expired s + placeholders s = total s <->
     Forall counted_status (contracts (self env))) ∧
    artists_with_files s <= total s ∧
    (average_split s = NInt 0 <-> active s = 0).
Proof.
  eexists. split; [unfold generate_summary, bind, read, ret; reflexivity|].
  cbn [total audit_log_entries active expired placeholders artists_with_files average_split].
  destruct (count_statuses (contracts (self env))) as [Hle Heq]. cbn zeta in *.
  split; [done|]. split; [done|]. split; [done|]. split; [done|]. split.
  - clear. induction (contracts (self env)) as [|c cs IH]; [done|]. cbn [List.filter].
    destruct (truthy (file_path c)); cbn [length]; lia.
  - destruct (List.filter _ (contracts (self env))); cbn; split; done.
Qed.
End summary.

(** ** Director: decisions, priorities and routing *)

Section escalation_log.
Import director.
Variable lower : string -> string.

Lemma continuation_spec (c : ascii) : continuation c = true <-> continues c.
Proof.
  unfold continuation, continues.
  rewrite andb_true_iff, Nat.leb_le, Nat.ltb_lt. done.
Qed.

(** The slice is the first [n] characters. *)
Lemma take_chars_spec (n : nat) (s : string) : first_chars n s (take_chars n s).
Proof.
  revert n. induction s as [|c s IH]; intros n.
  - exists EmptyString. by destruct n.
  - cbn [take_chars char_count].
    destruct (continuation c) eqn:E.
    + destruct (IH n) as (rest & Heq & Hcount & Hrest).
      exists rest. apply continuation_spec in E.
      cbn [char_count]. rewrite !decide_True by done.
      split; [|done].
      change (String c s = String c (take_chars n s +:+ rest)). by rewrite <- Heq.
    + assert (Hc : ¬ continues c) by (rewrite <- continuation_spec; congruence).
      destruct n as [|n].
      * exists (String c s). done.
      * destruct (IH n) as (rest & Heq & Hcount & Hrest).
        exists rest. cbn [char_count]. rewrite !decide_False by done.
        split; [|split; [by rewrite Hcount|done]].
        change (String c s = String c (take_chars n s +:+ rest)). by rewrite <- Heq.
Qed.

Lemma escalate_loop_run (utcnow issue from : string) (rules : list EscalationRule)
    (env : Env Director) :
  (∃ skipped rule rest,
      rules = skipped ++ rule :: rest ∧
      Forall (fun r => ¬ rule_matches lower issue from r) skipped ∧
      rule_matches lower issue from rule ∧
      escalate_loop lower utcnow issue from rules env =
        (Returned {[ "action" := action rule;
                     "message" := "Escalation from " +:+ from +:+ ": " +:+ issue ]},
         mkEnv
           (mkDirector (escalation_rules (self env))
              (_decision_log (self env) ++
                 [mkDecision utcnow "escalation" from (take_chars 120 issue)
                    (action rule)]))
           (logged env))) ∨
  (Forall (fun r => ¬ rule_matches lower issue from r) rules ∧
   escalate_loop lower utcnow issue from rules env =
     (Returned {[ "action" := "notify_admin";
                  "message" := "Unmatched escalation from " +:+ from +:+ ": " +:+ issue ]},
      env)).
Proof.
  induction rules as [|rule rules IH]; cbn [escalate_loop].
  - right. split; [constructor|done].
  - destruct (applies lower issue from rule) eqn:E.
    + left. exists [], rule, rules.
      split_and!; [done|constructor|by apply applies_spec|done].
    + assert (Hno : ¬ rule_matches lower issue from rule).
      { rewrite <- applies_spec. congruence. }
      destruct IH as [(skipped & r & rest & -> & Hsk & Hr & Hrun)|[Hall Hrun]].
      * left. exists (rule :: skipped), r, rest. split_and!; [done|by constructor|done..].
      * right. split; [by constructor|done].
Qed.

(** X21.  [escalate] appends one entry to the decision log when a rule
    matches, with the agent, the first 120 characters of the issue (all of
    it when it has fewer; characters, not bytes of its encoding) and the
    action of the rule it returns, and leaves the director as it was when
    none matches; it never changes the rules and never logs. *)
Theorem escalate_logs_decision (utcnow issue from : string) (env : Env Director) :
  (∃ rule head,
      rule ∈ escalation_rules (self env) ∧ rule_matches lower issue from rule ∧
      first_chars 120 issue head ∧
      escalate lower utcnow issue from env =
        (Returned {[ "action" := action rule;
                     "message" := "Escalation from " +:+ from +:+ ": " +:+ issue ]},
         mkEnv
           (mkDirector (escalation_rules (self env))
              (_decision_log (self env) ++
                 [mkDecision utcnow "escalation" from head (action rule)]))
           (logged env))) ∨
  (Forall (fun r => ¬ rule_matches lower issue from r) (escalation_rules (self env)) ∧
   escalate lower utcnow issue from env =
     (Returned {[ "action" := "notify_admin";
                  "message" := "Unmatched escalation from " +:+ from +:+ ": " +:+ issue ]},
      env)).
Proof.
  unfold escalate, bind, read. cbn [fst snd].
  destruct (escalate_loop_run utcnow issue from (escalation_rules (self env)) env)
    as [(skipped & r & rest & Heq & Hsk & Hr & Hrun)|[Hall Hrun]].
  - left. exists r, (take_chars 120 issue).
    split; [rewrite Heq; set_solver|]. split; [done|]. split; [apply take_chars_spec|done].
  - by right.
Qed.
End escalation_log.

Section priorities.
Import base_agent director_team.

Lemma insert_desc_perm {A} (key : A -> Z) (x : A) (l : list A) :
  insert_desc key x l ≡ₚ x :: l.
Proof.
  induction l as [|y l IH]; cbn [insert_desc]; [done|].
  destruct (key x <? key y)%Z; [|done].
  rewrite IH. apply Permutation_swap.
Qed.

Lemma sorted_desc_perm {A} (key : A -> Z) (l : list A) : sorted_desc key l ≡ₚ l.
Proof.
  induction l as [|x l IH]; cbn; [done|].
  rewrite insert_desc_perm. by rewrite IH.
Qed.

Lemma insert_desc_sorted {A} (key : A -> Z) (x : A) (l : list A) :
  descending key l -> descending key (insert_desc key x l).
Proof.
  unfold descending. induction 1 as [|y l Hl IH Hy]; cbn [insert_desc].
  - repeat constructor.
  - destruct (Z.ltb_spec (key x) (key y)).
    + constructor; [done|].
      rewrite insert_desc_perm. constructor; [lia|done].
    + constructor; [by constructor|].
      constructor; [done|]. eapply Forall_impl; [exact Hy|]. cbn. lia.
Qed.

Lemma sorted_desc_sorted {A} (key : A -> Z) (l : list A) : descending key (sorted_desc key l).
Proof.
  induction l as [|x l IH]; cbn; [constructor|]. by apply insert_desc_sorted.
Qed.

Lemma insert_desc_filter {A} (key : A -> Z) (P : A -> Prop) `{!∀ x, stdpp.base.Decision (P x)}
    (x : A) (l : list A) :
  (∀ y, y ∈ l -> (key x < key y)%Z -> P x -> ¬ P y) ->
  filter P (insert_desc key x l) = filter P (x :: l).
Proof.
  induction l as [|y l IH]; intros Hsep; cbn [insert_desc]; [done|].
  destruct (Z.ltb_spec (key x) (key y)); [|done].
  rewrite filter_cons, IH by (intros; apply Hsep; [by right|done..]).
  rewrite !filter_cons.
  destruct (decide (P x)) as [Hx|Hx]; [|done].
  rewrite decide_False; [rewrite decide_False; [done|]|]; apply Hsep; try done; by left.
Qed.

Lemma sorted_desc_stable {A} (key : A -> Z) (k : Z) (l : list A) :
  filter (fun x => key x = k) (sorted_desc key l) = filter (fun x => key x = k) l.
Proof.
  induction l as [|x l IH]; cbn [sorted_desc foldr]; [done|].
  rewrite insert_desc_filter by (cbn; lia).
  rewrite !filter_cons. fold (sorted_desc key l). by rewrite IH.
Qed.

Lemma descending_split {A} (key : A -> Z) (k : Z) (l : list A) :
  descending key l ->
  l = filter (fun x => (k <= key x)%Z) l ++ filter (fun x => ¬ (k <= key x)%Z) l.
Proof.
  induction 1 as [|x l Hl IH Hx]; [done|].
  rewrite !filter_cons. destruct (decide (k <= key x)%Z) as [Hk|Hk].
  - rewrite decide_False by tauto. cbn. by rewrite <- IH.
  - rewrite decide_True by done.
    rewrite Forall_forall in Hx.
    rewrite (filter_none (fun y => (k <= key y)%Z) l).
    + cbn. f_equal. symmetry. apply filter_all.
      intros y Hy. specialize (Hx y Hy). cbn in Hx. lia.
    + intros y Hy. specialize (Hx y Hy). cbn in Hx. lia.
Qed.

Section scores.
Variable lower : string -> string.

Lemma score_urgent (t : AgentTask) :
  (is_urgent lower t -> _score lower t = 150%Z) ∧
  (¬ is_urgent lower t -> (_score lower t <= 130)%Z).
Proof.
  unfold is_urgent, _score. cbn [fold_left PRIORITY_WEIGHTS existsb].
  generalize (lower (text t)). intros s.
  destruct (director.contains "urgent" s); cbn [orb].
  - split; [intros _|done].
    repeat (destruct (director.contains _ s)); reflexivity.
  - split; [done|intros _].
    repeat (destruct (director.contains _ s)); cbn; lia.
Qed.
End scores.
End priorities.

Section priority_order.
Import base_agent director_team.
Variable lower : string -> string.

(** X22.  [prioritize] reorders and nothing else: the result is a permutation
    of the tasks given, in descending order of score, and tasks of equal
    score keep the order they had. *)
Theorem prioritize_sorts (tasks : list AgentTask) :
  prioritize lower tasks ≡ₚ tasks ∧
  StronglySorted (fun t u => (_score lower u <= _score lower t)%Z) (prioritize lower tasks) ∧
  ∀ k, filter (fun t => _score lower t = k) (prioritize lower tasks) =
       filter (fun t => _score lower t = k) tasks.
Proof.
  split_and!.
  - apply sorted_desc_perm.
  - apply sorted_desc_sorted.
  - intros k. apply sorted_desc_stable.
Qed.

(** X23.  Every task whose lower-cased text contains "urgent" comes before
    every task whose text does not, and the urgent tasks keep the order
    they were given in. *)
Theorem prioritize_urgent_first (tasks : list AgentTask) :
  prioritize lower tasks =
    filter (is_urgent lower) tasks ++
    filter (fun t => ¬ is_urgent lower t) (prioritize lower tasks).
Proof.
  assert (Hiff : ∀ t, (150 <= _score lower t)%Z <-> is_urgent lower t).
  { intros t. destruct (score_urgent lower t) as [Hu Hn].
    destruct (decide (is_urgent lower t)) as [H|H]; [specialize (Hu H)|specialize (Hn H)].
    - split; [done|lia].
    - split; [lia|done]. }
  assert (Heq : ∀ t, _score lower t = 150%Z <-> is_urgent lower t).
  { intros t. destruct (score_urgent lower t) as [Hu Hn].
    split; [|done]. intros H. apply Hiff. lia. }
  rewrite (descending_split (_score lower) 150 (prioritize lower tasks)) at 1
    by apply sorted_desc_sorted.
  f_equal.
  - rewrite <- (list_filter_iff _ _ _ Heq).
    rewrite <- (sorted_desc_stable (_score lower) 150 tasks).
    apply list_filter_iff. intros t. rewrite Heq. apply Hiff.
  - apply list_filter_iff. intros t. by rewrite Hiff.
Qed.
End priority_order.

Section routing.
Import base_agent director_team.

Lemma scores_join (text_lower : string) (rules : list (string * list string))
    (acc : list (string * nat)) :
  fold_left
    (fun scores '(codename, keywords) =>
       let score := keyword_score text_lower keywords in
       if (0 <? score)%nat then scores ++ [(codename, score)] else scores)
    rules acc = acc ++ mjoin (routed text_lower <$> rules).
Proof.
  apply fold_left_append. intros acc' [c kws]. unfold routed. cbn [fst snd].
  destruct (0 <? keyword_score text_lower kws)%nat; [done|by rewrite app_nil_r].
Qed.

Lemma route_scores_join (text_lower : string) :
  route_scores text_lower = mjoin (routed text_lower <$> ROUTING_RULES).
Proof. unfold route_scores. by rewrite scores_join. Qed.







Lemma keyword_score_zero (text_lower : string) (keywords : list string) :
  keyword_score text_lower keywords = 0%nat <->
  ∀ kw, kw ∈ keywords -> director.contains kw text_lower = false.
Proof.
  unfold keyword_score. induction keywords as [|kw kws IH]; cbn [List.filter].
  - split; [intros _ kw []%elem_of_nil|done].
  - destruct (director.contains kw text_lower) eqn:E; cbn [length].
    + split; [done|]. intros H. specialize (H kw). rewrite E in H.
      discriminate H. left.
    + rewrite IH. split.
      * intros H k [->|Hk]%elem_of_cons; [done|by apply H].
      * intros H k Hk. apply H. by right.
Qed.

Lemma route_scores_nil (text_lower : string) :
  route_scores text_lower = [] <->
  ∀ codename keywords kw,
    (codename, keywords) ∈ ROUTING_RULES -> kw ∈ keywords ->
    director.contains kw text_lower = false.
Proof.
  rewrite route_scores_join. generalize ROUTING_RULES. intros rules.
  induction rules as [|[c kws] rules IH].
  - split; [intros _ ??? []%elem_of_nil|done].
  - rewrite fmap_cons, mjoin_cons. unfold routed at 1. cbn [fst snd].
    destruct (Nat.ltb_spec 0 (keyword_score text_lower kws)) as [Hpos|Hz].
    + split; [done|]. intros H. exfalso.
      assert (keyword_score text_lower kws = 0%nat); [|lia].
      apply keyword_score_zero. intros kw Hkw. apply (H c kws); [left|done].
    + cbn [app]. rewrite IH. split.
      * intros H c' kws' kw [[= -> ->]|Hin]%elem_of_cons Hkw; [|by eapply H].
        revert kw Hkw. apply keyword_score_zero. lia.
      * intros H c' kws' kw Hin Hkw. apply (H c' kws'); [by right|done].
Qed.

Section text.
Variable lower : string -> string.
Variable head : nat -> string -> string.

Lemma delegate_run (utcnow : string) (task : AgentTask) (env : Env Team) :
  match route_scores (lower (text task)) with
  | [] =>
      delegate lower head utcnow task env =
        (Returned (None, task),
         mkEnv (self env)
           (logged env ++
              [mkLog WARNING "No agent matched for task: %s" [AStr (head 80 (text task))]]))
  | first :: rest =>
      let best := max_score first rest in
      let task' := mkAgentTask (text task) "active" in
      delegate lower head utcnow task env =
        (Returned (Some best.1, task'),
         mkEnv
           (mkTeam (director_name (self env)) (task_queue (self env))
              (match agents (self env) !! best.1 with
               | Some agent => <[best.1 := with_task agent task']> (agents (self env))
               | None => agents (self env)
               end)
              (_decision_log (self env) ++
                 [mkDelegation utcnow "delegate" (head 120 (text task)) best.1
                    (first :: rest)]))
           (logged env ++
              [mkLog INFO "Task delegated to %s (score=%d): %s"
                 [AStr best.1; AInt (Z.of_nat best.2); AStr (head 60 (text task))]]))
  end.
Proof.
  unfold delegate. destruct (route_scores (lower (text task))) as [|first rest]; [done|].
  cbn zeta. unfold bind, write, log, ret. cbn [fst snd self logged].
  cbn [agents director_name task_queue _decision_log].
  by destruct (agents (self env) !! (max_score first rest).1).
Qed.

(** X24.  [delegate] returns no agent exactly when no keyword of any routing
    rule occurs in the lower-cased text of the task; then the task keeps
    its status, the team is left as it was and one warning is logged. *)
Theorem delegate_unmatched (utcnow : string) (task : AgentTask) (env : Env Team) :
  (∀ codename keywords kw,
      (codename, keywords) ∈ ROUTING_RULES -> kw ∈ keywords ->
      director.contains kw (lower (text task)) = false) <->
  delegate lower head utcnow task env =
    (Returned (None, task),
     mkEnv (self env)
       (logged env ++
          [mkLog WARNING "No agent matched for task: %s" [AStr (head 80 (text task))]])).
Proof.
  rewrite <- route_scores_nil. pose proof (delegate_run utcnow task env) as Hrun.
  destruct (route_scores (lower (text task))) as [|first rest].
  - done.
  - cbn zeta in Hrun. rewrite Hrun. split; [done|]. intros [= _]. 
Qed.


(** X26.  After [delegate] returned an agent, [status_report] shows one more
    active task for that agent when it is registered, and is otherwise
    what it was before. *)
Theorem delegate_then_status_report (utcnow now : string) (task : AgentTask) (env : Env Team)
    (best : string) (task' : AgentTask) (env' : Env Team) :
  delegate lower head utcnow task env = (Returned (Some best, task'), env') ->
  ∃ before after,
    status_report now env = (Returned before, env) ∧
    status_report now env' = (Returned after, env') ∧
    agents_count after = agents_count before ∧
    queue_length after = queue_length before ∧
    (∀ codename, codename ≠ best ->
       report_agents after !! codename = report_agents before !! codename) ∧
    report_agents after !! best =
      (fun s => mkAgentStatus (status_name s) (status_role s) (agent_status s)
                  (tasks_pending s) (S (tasks_active s)) (tasks_done s))
        <$> report_agents before !! best.
Proof.
  pose proof (delegate_run utcnow task env) as Hrun.
  destruct (route_scores (lower (text task))) as [|first rest] eqn:Hscores.
  { rewrite Hrun. intros [= ]. }
  cbn zeta in Hrun. rewrite Hrun. intros [= <- <- <-]. clear Hrun.
  eexists _, _. split; [reflexivity|]. split; [reflexivity|].
  cbn [self agents agents_count queue_length report_agents task_queue].
  set (best := (max_score first rest).1).
  destruct (agents (self env) !! best) as [agent|] eqn:Hbest.
  - split_and!.
    + apply map_size_insert_Some. by rewrite Hbest.
    + done.
    + intros c Hc. by rewrite !lookup_fmap, lookup_insert_ne.
    + rewrite !lookup_fmap, lookup_insert_eq, Hbest. cbn. f_equal.
      unfold count_status, with_task. cbn [tasks name role status].
      rewrite !List.filter_app, !length_app. cbn. f_equal; lia.
  - split_and!; [done..|]. by rewrite !lookup_fmap, Hbest.
Qed.
End text.


(** The same text, delegated to a registered agent with one active task. *)
Lemma delegate_then_status_report_witness :
  let agent := mkBaseAgent "Rita" "ROYALTY-ENGINE" "royalties" "opus" "R" "#22c955" "" [] []
                 [mkAgentTask "fetch koala" "active"] [] "active" "" true [] in
  let env := mkEnv (mkTeam "NEXUS" [] {[ "ROYALTY-ENGINE" := agent ]} []) [] in
  let env' := (delegate id (String.substring 0) "2026-01-01T00:00:00"
                 (mkAgentTask "royalty report and split" "pending") env).2 in
  ∃ before after,
    status_report "2026-01-02T00:00:00" env = (Returned before, env) ∧
    status_report "2026-01-02T00:00:00" env' = (Returned after, env') ∧
    tasks_active <$> report_agents before !! "ROYALTY-ENGINE" = Some 1%nat ∧
    tasks_active <$> report_agents after !! "ROYALTY-ENGINE" = Some 2%nat.
Proof.
  cbn zeta.
  destruct (delegate_then_status_report id (String.substring 0) "2026-01-01T00:00:00"
              "2026-01-02T00:00:00"
              (mkAgentTask "royalty report and split" "pending")
              (mkEnv (mkTeam "NEXUS" []
                        {[ "ROYALTY-ENGINE" :=
                             mkBaseAgent "Rita" "ROYALTY-ENGINE" "royalties" "opus" "R"
                               "#22c955" "" [] [] [mkAgentTask "fetch koala" "active"] []
                               "active" "" true [] ]} []) [])
              "ROYALTY-ENGINE" (mkAgentTask "royalty report and split" "active")
              (delegate id (String.substring 0) "2026-01-01T00:00:00"
                 (mkAgentTask "royalty report and split" "pending")
                 (mkEnv (mkTeam "NEXUS" []
                           {[ "ROYALTY-ENGINE" :=
                                mkBaseAgent "Rita" "ROYALTY-ENGINE" "royalties" "opus" "R"
                                  "#22c955" "" [] [] [mkAgentTask "fetch koala" "active"] []
                                  "active" "" true [] ]} []) [])).2)
    as (before & after & Hb & Ha & _ & _ & _ & Hbest).
  - vm_compute. reflexivity.
  - exists before, after. split; [exact Hb|]. split; [exact Ha|].
    rewrite Hbest. injection Hb as <-. split; vm_compute; reflexivity.
Defined.

(** X27.  After [register_agent], [status_report] shows the new agent under
    its code name, in place of an agent registered under that name before,
    and every other agent as before; the number of agents grows by one only
    when the code name is new. *)
Theorem register_agent_then_status_report (now : string) (agent : BaseAgent) (env : Env Team) :
  ∃ env' before after,
    register_agent agent env = (Returned tt, env') ∧
    logged env' =
      logged env ++
        [mkLog INFO "Agent registered: %s (%s)" [AStr (name agent); AStr (codename agent)]] ∧
    status_report now env = (Returned before, env) ∧
    status_report now env' = (Returned after, env') ∧
    report_agents after = <[codename agent := status_of agent]> (report_agents before) ∧
    agents_count after =
      match report_agents before !! codename agent with
      | Some _ => agents_count before
      | None => S (agents_count before)
      end ∧
    queue_length after = queue_length before.
Proof.
  eexists _, _, _. split; [reflexivity|]. split; [reflexivity|].
  split; [reflexivity|]. split; [reflexivity|].
  cbn [self agents agents_count queue_length report_agents task_queue].
  split_and!.
  - by rewrite fmap_insert.
  - rewrite lookup_fmap. destruct (agents (self env) !! codename agent) eqn:E; cbn.
    + apply map_size_insert_Some. by rewrite E.
    + by apply map_size_insert_None.
  - done.
Qed.

Lemma count_status_sum (ts : list AgentTask) :
  (length (List.filter (fun t => String.eqb (task_status t) "pending") ts) +
   length (List.filter (fun t => String.eqb (task_status t) "active") ts) +
   length (List.filter (fun t => String.eqb (task_status t) "done") ts) <= length ts)%nat ∧
  (length (List.filter (fun t => String.eqb (task_status t) "pending") ts) +
   length (List.filter (fun t => String.eqb (task_status t) "active") ts) +
   length (List.filter (fun t => String.eqb (task_status t) "done") ts) = length ts <->
   Forall (fun t => task_status t = "pending" ∨ task_status t = "active" ∨
                    task_status t = "done") ts).
Proof.
  induction ts as [|t ts [IHle IHeq]]; cbn [List.filter length].
  - split; [lia|]. split; [constructor|done].
  - rewrite Forall_cons.
    destruct (String.eqb_spec (task_status t) "pending") as [->|Hp]; cbn [length].
    { cbn. split; [lia|]. rewrite <- IHeq. split; [intros; split; [tauto|lia]|intros []; lia]. }
    destruct (String.eqb_spec (task_status t) "active") as [->|Ha]; cbn [length].
    { cbn. split; [lia|]. rewrite <- IHeq. split; [intros; split; [tauto|lia]|intros []; lia]. }
    destruct (String.eqb_spec (task_status t) "done") as [->|Hd]; cbn [length].
    { split; [lia|]. rewrite <- IHeq. split; [intros; split; [tauto|lia]|intros []; lia]. }
    split; [lia|]. split; [lia|]. intros [[|[|]] _]; done.
Qed.

(** X28.  [status_report] leaves the team as it was and reports the agents
    that are registered, no other; for each of them the pending, active and
    done counts add up to at most the number of its tasks, and to that
    number exactly when none of its tasks has another status, such as
    [blocked]. *)
Theorem status_report_counts (now : string) (env : Env Team) :
  ∃ report,
    status_report now env = (Returned report, env) ∧
    director report = director_name (self env) ∧
    agents_count report = size (agents (self env)) ∧
    queue_length report = length (task_queue (self env)) ∧
    ∀ codename,
      match agents (self env) !! codename with
      | None => report_agents report !! codename = None
      | Some agent =>
          ∃ s, report_agents report !! codename = Some s ∧
               (tasks_pending s + tasks_active s + tasks_done s <= length (tasks agent))%nat ∧
               (tasks_pending s + tasks_active s + tasks_done s = length (tasks agent) <->
                Forall (fun t => task_status t = "pending" ∨ task_status t = "active" ∨
                                 task_status t = "done") (tasks agent))
      end.
Proof.
  eexists. split; [reflexivity|].
  cbn [director agents_count queue_length report_agents].
  split_and!; [done..|]. intros c. rewrite lookup_fmap.
  destruct (agents (self env) !! c) as [agent|]; [|done].
  eexists. split; [reflexivity|]. cbn [tasks_pending tasks_active tasks_done].
  apply count_status_sum.
Qed.
End routing.

Section serialization.
Import base_agent.

(** X29.  [from_dict] after [to_dict] gives the agent back with its commands,
    but without its tasks, its colour and its description, which [to_dict]
    does not store: they come back as the defaults. *)
Theorem from_dict_to_dict (agent : BaseAgent) :
  (from_dict (to_dict agent)).1 =
    mkBaseAgent (name agent) (codename agent) (role agent) (model agent) (avatar agent)
      "#22c955" (specialty agent) (tools agent) (memory agent) [] (commands agent)
      (status agent) "" (portable agent) (requires_api agent).
Proof.
  unfold from_dict, to_dict. cbn. f_equal.
  rewrite <- list_fmap_compose. rewrite <- (list_fmap_id (commands agent)) at 2.
  apply list_fmap_ext. by intros _ [] _.
Qed.

(** X30.  [from_dict] removes the commands and the tasks from the dictionary
    it is given: a second call on the same dictionary builds the same agent
    without commands and without tasks. *)
Theorem from_dict_consumes (data : AgentDict) :
  let first := from_dict data in
  let second := from_dict first.2 in
  second.2 = first.2 ∧
  dict_commands first.2 = None ∧ dict_tasks first.2 = None ∧
  commands second.1 = [] ∧ tasks second.1 = [] ∧
  second.1 =
    mkBaseAgent (name first.1) (codename first.1) (role first.1) (model first.1)
      (avatar first.1) (color first.1) (specialty first.1) (tools first.1) (memory first.1)
      [] [] (status first.1) (description first.1) (portable first.1)
      (requires_api first.1).
Proof. by destruct data. Qed.
End serialization.

(** ** Scenarios *)

Section scenarios.
Import royalty_manager.

(** Gross 10000.00 at a share of 0.70 with an advance of 7500.00 left: the
    share of 7000.00 is deducted whole and nothing is paid out. *)
Example advance_absorbs_share :
  (calculate "Q4 2025" None
     (Some [mkRow (Some "Alice") (Some (mkDecimal 1000000 (-2))) (Some 1200%Z) (Some "t1")])
     (mkEnv (mkRoyaltyManager {[ "Alice" := mkDecimal 7 (-1) ]}
               {[ "Alice" := mkDecimal 75000 (-1) ]}) [])).1
  = Returned
      [mkArtistPayout "Alice" "Q4 2025" (mkDecimal 1000000 (-2)) (mkDecimal 7 (-1))
         (mkDecimal 700000 (-2)) (mkDecimal 700000 (-2)) (mkDecimal 0 (-2)) 1 1200].
Proof. vm_compute. reflexivity. Qed.

(** Gross 500.00 at a share of 0.80 with an advance of 100.00 left: 400.00,
    less 100.00, pays 300.00. *)
Example advance_partly_recovered :
  (calculate "Q4 2025" None
     (Some [mkRow (Some "Bob") (Some (mkDecimal 30000 (-2))) (Some 10%Z) (Some "t1");
            mkRow (Some "Bob") (Some (mkDecimal 20000 (-2))) (Some 5%Z) (Some "t1")])
     (mkEnv (mkRoyaltyManager {[ "Bob" := mkDecimal 8 (-1) ]}
               {[ "Bob" := mkDecimal 1000 (-1) ]}) [])).1
  = Returned
      [mkArtistPayout "Bob" "Q4 2025" (mkDecimal 50000 (-2)) (mkDecimal 8 (-1))
         (mkDecimal 40000 (-2)) (mkDecimal 1000 (-1)) (mkDecimal 30000 (-2)) 1 15].
Proof. vm_compute. reflexivity. Qed.

(** Two artists with revenue, one of them without a split: one payout and
    one warning. *)
Example one_split_missing :
  let run :=
    calculate "Q4 2025" None
      (Some [mkRow (Some "Carol") (Some (mkDecimal 100 0)) None None;
             mkRow (Some "Bob") (Some (mkDecimal 50000 (-2))) None None])
      (mkEnv (mkRoyaltyManager {[ "Bob" := mkDecimal 8 (-1) ]} ∅) []) in
  artist <$> default [] (match run.1 with Returned r => Some r | Raised _ => None end) = ["Bob"] ∧
  logged run.2 =
    [mkLog WARNING "No split for %s, skipping" [AStr "Carol"];
     mkLog INFO "Calculated royalties for Q=%s: %d artists" [AStr "Q4 2025"; AInt 1]].
Proof. split; vm_compute; reflexivity. Qed.

(** The artist filter keeps the rows of one artist only. *)
Example filter_one_artist :
  group_rows (Some "Bob")
    [mkRow (Some "Carol") None None None; mkRow (Some "Bob") None None None;
     mkRow None None None None; mkRow (Some "Bob") None (Some 2%Z) None]
  = [("Bob", [mkRow (Some "Bob") None None None; mkRow (Some "Bob") None (Some 2%Z) None])].
Proof. reflexivity. Qed.

(** A tie is rounded up whether the cent before it is odd or even, and a
    negative amount away from zero. *)
Example quantize_ties :
  Dec.quantize_half_up (mkDecimal 125 (-3)) (-2) = mkDecimal 13 (-2) ∧
  Dec.quantize_half_up (mkDecimal 1005 (-3)) (-2) = mkDecimal 101 (-2) ∧
  Dec.quantize_half_up (mkDecimal (-125) (-3)) (-2) = mkDecimal (-13) (-2) ∧
  Dec.quantize_half_up (mkDecimal 1249 (-4)) (-2) = mkDecimal 12 (-2) ∧
  Dec.quantize_half_up (mkDecimal 7 0) (-2) = mkDecimal 700 (-2).
Proof. repeat split. Qed.

(** The range check of [update_split]: NaN and the values outside [0, 1]
    fail it, the bounds pass. *)
Example unit_interval :
  contract_manager.in_unit_interval nan = false ∧
  contract_manager.in_unit_interval 1.5 = false ∧
  contract_manager.in_unit_interval (-0.1) = false ∧
  contract_manager.in_unit_interval 0 = true ∧
  contract_manager.in_unit_interval 0.7 = true ∧
  contract_manager.in_unit_interval 1 = true.
Proof. repeat split. Qed.

(** The default rules, with identity for [str.lower] on an issue already in
    lower case. *)
Example escalate_default_rules :
  let env := mkEnv (director.mkDirector director.default_rules []) [] in
  (director.escalate id "2026-01-01T00:00:00" "split_mismatch for Alice" "CONTRACT-MGR" env).1
    = Returned {[ "action" := "block";
                  "message" := "Escalation from CONTRACT-MGR: split_mismatch for Alice" ]} ∧
  (director.escalate id "2026-01-01T00:00:00" "split_mismatch for Alice" "ROYALTY-ENGINE" env).1
    = Returned {[ "action" := "notify_admin";
                  "message" := "Unmatched escalation from ROYALTY-ENGINE: split_mismatch for Alice" ]}.
Proof. split; vm_compute; reflexivity. Qed.

(** The slice counts characters: a Cyrillic word of seven letters, fourteen
    bytes in UTF-8, is kept whole by a slice of seven and cut after its
    third letter by a slice of three. *)
Example take_chars_cyrillic :
  String.length "договор" = 14%nat ∧ char_count "договор" = 7%nat ∧
  director.take_chars 7 "договор" = "договор" ∧
  director.take_chars 3 "договор!" = "дог" ∧
  director.take_chars 3 "ab" = "ab" ∧
  director.take_chars 0 "договор" = "".
Proof. repeat split. Qed.

(** A matched escalation whose issue has 130 Cyrillic letters: the entry
    of the decision log keeps 120 of them, 240 bytes. *)
Example escalate_logs_characters :
  let issue := "split_mismatch " +:+ String.concat EmptyString (replicate 130 "я") in
  let env := mkEnv (director.mkDirector director.default_rules []) [] in
  (fun d => (String.length (director.issue_head d), char_count (director.issue_head d)))
    <$> director._decision_log
          (self (director.escalate id "2026-01-01T00:00:00" issue "CONTRACT-MGR" env).2)
  = [(225%nat, 120%nat)].
Proof. vm_compute. reflexivity. Qed.
End scenarios.
